(** * RSI-adjusted support/resistance advisor: the indicator pipeline

    A shallow embedding of the indicator and signal part of [mytrader.py]
    (lines 95-153): [rsi_series], the derived columns of the [prices]
    table, the [valid] sub-table obtained with [dropna], the two signal
    columns and the recommendation on the latest row.

    Numbers.  The script computes on IEEE-754 doubles held in pandas
    Series.  Here a double is an exact rational or one of the special
    values NaN, +inf, -inf; the special values follow the IEEE rules that
    the script relies on (x/0, 0/0, arithmetic and comparisons with NaN).
    Rounding is not modelled, nor is the sign of zero: every divisor that
    can be zero in the script is a mean of non-negative numbers, that is
    +0.

    pandas.  [shift], [diff], [rolling(..).mean/min/max], [dropna] and the
    element-wise operators are modelled on lists.  A rolling window of
    width [w] at position [i] holds positions [i+1-w .. i] (fewer at the
    start); its result is NaN unless it holds at least [min_periods]
    observations that are not NaN (and at least one). *)

From Stdlib Require Import QArith Qabs Lqa ZArith Lia.
From stdpp Require Import base list strings.

(** ** Doubles: rationals with the IEEE special values *)

Module F64.

Inductive float64 : Type :=
  | NaN : float64
  | Inf : bool -> float64          (* [Inf false] is +inf, [Inf true] is -inf *)
  | Fin : Q -> float64.

Definition Qneg (q : Q) : bool := QMicromega.Qlt_bool q 0.
Definition Qzero (q : Q) : bool := Qeq_bool q 0.

Definition fneg (x : float64) : float64 :=
  match x with
  | NaN => NaN
  | Inf s => Inf (negb s)
  | Fin q => Fin (- q)
  end.

Definition fabs (x : float64) : float64 :=
  match x with
  | NaN => NaN
  | Inf _ => Inf false
  | Fin q => Fin (Qabs q)
  end.

Definition fadd (x y : float64) : float64 :=
  match x, y with
  | NaN, _ | _, NaN => NaN
  | Inf s, Inf t => if Bool.eqb s t then Inf s else NaN
  | Inf s, Fin _ => Inf s
  | Fin _, Inf t => Inf t
  | Fin p, Fin q => Fin (p + q)
  end.

Definition fsub (x y : float64) : float64 := fadd x (fneg y).

Definition fmul (x y : float64) : float64 :=
  match x, y with
  | NaN, _ | _, NaN => NaN
  | Inf s, Inf t => Inf (xorb s t)
  | Inf s, Fin q => if Qzero q then NaN else Inf (xorb s (Qneg q))
  | Fin p, Inf t => if Qzero p then NaN else Inf (xorb (Qneg p) t)
  | Fin p, Fin q => Fin (p * q)
  end.

(** Division; a zero divisor is +0. *)
Definition fdiv (x y : float64) : float64 :=
  match x, y with
  | NaN, _ | _, NaN => NaN
  | Inf _, Inf _ => NaN
  | Inf s, Fin q => Inf (xorb s (Qneg q))
  | Fin _, Inf _ => Fin 0
  | Fin p, Fin q =>
      if Qzero q then (if Qzero p then NaN else Inf (Qneg p))
      else Fin (p / q)
  end.

(** Comparisons: anything compared with NaN is [false]. *)
Definition fltb (x y : float64) : bool :=
  match x, y with
  | NaN, _ | _, NaN => false
  | Inf s, Inf t => s && negb t
  | Inf s, Fin _ => s
  | Fin _, Inf t => negb t
  | Fin p, Fin q => QMicromega.Qlt_bool p q
  end.

Definition fleb (x y : float64) : bool :=
  match x, y with
  | NaN, _ | _, NaN => false
  | Inf s, Inf t => s || negb t
  | Inf s, Fin _ => s
  | Fin _, Inf t => negb t
  | Fin p, Fin q => Qle_bool p q
  end.

Definition fgtb (x y : float64) : bool := fltb y x.
Definition fgeb (x y : float64) : bool := fleb y x.

Definition isna (x : float64) : bool :=
  match x with NaN => true | _ => false end.
Definition notna (x : float64) : bool := negb (isna x).

Definition fmin (x y : float64) : float64 := if fleb x y then x else y.
Definition fmax (x y : float64) : float64 := if fleb x y then y else x.

(** Equality of doubles as values: rationals up to [Qeq]. *)
Definition feq (x y : float64) : Prop :=
  match x, y with
  | NaN, NaN => True
  | Inf s, Inf t => s = t
  | Fin p, Fin q => p == q
  | _, _ => False
  end.

Definition of_Z (z : Z) : float64 := Fin (inject_Z z).

End F64.
Export F64.

Coercion of_Z : Z >-> float64.

(** ** Exceptions *)

Inductive exn : Type :=
  | ValueError.

Inductive result (A : Type) : Type :=
  | Ok : A -> result A
  | Raise : exn -> result A.
Arguments Ok {A} _.
Arguments Raise {A} _.

#[global] Instance result_bind : MBind result := fun A B k m =>
  match m with
  | Ok a => k a
  | Raise e => Raise e
  end.

(** ** pandas and numpy on lists *)

Abbreviation Series := (list float64).

(** [s.shift(1)]: same length, NaN first. *)
Definition shift (s : Series) : Series := take (length s) (NaN :: s).

(** [s.diff()] is [s - s.shift(1)]. *)
Definition diff (s : Series) : Series := zip_with fsub s (shift s).

(** [np.where(cond, x, c)] with a scalar third argument. *)
Definition np_where (cond : list bool) (x : Series) (c : float64) : Series :=
  zip_with (fun (b : bool) v => if b then v else c) cond x.

(** The window of width [w] that ends at position [i]. *)
Definition window {A} (w i : nat) (s : list A) : list A :=
  drop (S i - w) (take (S i) s).

(** [Rolling._validate]: the checks done when [s.rolling(window,
    min_periods=...)] is built. *)
Definition rolling_validate (win min_periods : Z) : result unit :=
  if (min_periods <? 0)%Z then Raise ValueError
  else if (win <? min_periods)%Z then Raise ValueError
  else if (win <? 0)%Z then Raise ValueError
  else Ok tt.

Definition roll_at (w minp : nat) (agg : Series -> float64) (s : Series)
  (i : nat) : float64 :=
  let obs := filter (fun x => notna x = true) (window w i s) in
  if (minp <=? length obs) && (0 <? length obs) then agg obs else NaN.

Definition roll (w minp : nat) (agg : Series -> float64) (s : Series) : Series :=
  imap (fun i _ => roll_at w minp agg s i) s.

Definition rolling (win min_periods : Z) (agg : Series -> float64) (s : Series)
  : result Series :=
  _ ← rolling_validate win min_periods;
  Ok (roll (Z.to_nat win) (Z.to_nat min_periods) agg s).

Definition fsum (obs : Series) : float64 := foldr fadd (Fin 0) obs.

Definition mean (obs : Series) : float64 :=
  fdiv (fsum obs) (of_Z (Z.of_nat (length obs))).

Definition smallest (obs : Series) : float64 :=
  match obs with
  | [] => NaN
  | x :: r => foldr fmin x r
  end.

Definition largest (obs : Series) : float64 :=
  match obs with
  | [] => NaN
  | x :: r => foldr fmax x r
  end.

(** ** Indicators (lines 95-119) *)

Definition gain (close : Series) : Series :=
  let delta := diff close in
  np_where ((fun d => fgtb d 0%Z) <$> delta) delta 0%Z.

Definition loss (close : Series) : Series :=
  let delta := diff close in
  np_where ((fun d => fltb d 0%Z) <$> delta) (fneg <$> delta) 0%Z.

Definition avg_gain (close : Series) (period : Z) : result Series :=
  rolling period 1 mean (gain close).

Definition avg_loss (close : Series) (period : Z) : result Series :=
  rolling period 1 mean (loss close).

Definition rsi_of (rs : float64) : float64 :=
  fsub 100%Z (fdiv 100%Z (fadd 1%Z rs)).

Definition rsi_series (close : Series) (period : Z) : result Series :=
  ag ← avg_gain close period;
  al ← avg_loss close period;
  let rs := zip_with fdiv ag al in
  let rsi := rsi_of <$> rs in
  Ok rsi.

(** One row of the [prices] table; [index] is the position of the bar. *)
Record row : Type := mkRow {
  index : nat;
  Close : float64;
  RSI : float64;
  RSI_diff : float64;
  Base_Support : float64;
  Base_Resistance : float64;
  Range : float64;
  Adj_Support : float64;
  Adj_Resistance : float64;
  Midline : float64;
  Smooth_Support : float64;
  Smooth_Resistance : float64;
  Smooth_Midline : float64
}.

(** The columns of [prices] as they are assigned one after the other. *)
Record columns : Type := mkColumns {
  cClose : Series;
  cRSI : Series;
  cRSI_diff : Series;
  cBase_Support : Series;
  cBase_Resistance : Series;
  cRange : Series;
  cAdj_Support : Series;
  cAdj_Resistance : Series;
  cMidline : Series;
  cSmooth_Support : Series;
  cSmooth_Resistance : Series;
  cSmooth_Midline : Series
}.

Definition indicators (close : Series) (rsiPeriod lookback smoothLength : Z)
  : result columns :=
  rsi ← rsi_series close rsiPeriod;
  let rsi_diff := (fun r => fdiv (fabs (fsub r 50%Z)) 50%Z) <$> rsi in
  base_support ← rolling lookback lookback smallest close;
  base_resistance ← rolling lookback lookback largest close;
  let range := zip_with fsub base_resistance base_support in
  let adj_support := zip_with fsub base_support (zip_with fmul rsi_diff range) in
  let adj_resistance := zip_with fadd base_resistance (zip_with fmul rsi_diff range) in
  let midline := (fun x => fdiv x 2%Z) <$> zip_with fadd adj_support adj_resistance in
  smooth_support ← rolling smoothLength smoothLength mean adj_support;
  smooth_resistance ← rolling smoothLength smoothLength mean adj_resistance;
  smooth_midline ← rolling smoothLength smoothLength mean midline;
  Ok (mkColumns close rsi rsi_diff base_support base_resistance range
        adj_support adj_resistance midline
        smooth_support smooth_resistance smooth_midline).

(** Reading a column at a label; a label the column lacks reads NaN. *)
Definition at_ (s : Series) (i : nat) : float64 := default NaN (s !! i).

Definition row_at (c : columns) (i : nat) : row :=
  mkRow i (at_ (cClose c) i) (at_ (cRSI c) i) (at_ (cRSI_diff c) i)
    (at_ (cBase_Support c) i) (at_ (cBase_Resistance c) i) (at_ (cRange c) i)
    (at_ (cAdj_Support c) i) (at_ (cAdj_Resistance c) i) (at_ (cMidline c) i)
    (at_ (cSmooth_Support c) i) (at_ (cSmooth_Resistance c) i)
    (at_ (cSmooth_Midline c) i).

Definition rows (c : columns) : list row :=
  row_at c <$> seq 0 (length (cClose c)).

(** ** The valid rows and the signals (lines 121-153) *)

(** [dropna(subset=["Smooth_Support","Smooth_Resistance","Smooth_Midline","RSI"])] *)
Definition complete (r : row) : bool :=
  notna (Smooth_Support r) && notna (Smooth_Resistance r)
  && notna (Smooth_Midline r) && notna (RSI r).

Definition dropna (prices : list row) : list row :=
  filter (fun r => complete r = true) prices.

Definition Buy_Signal (valid : list row) : list bool :=
  zip_with andb
    (zip_with andb
       (zip_with fgtb (Close <$> valid) (Smooth_Support <$> valid))
       (zip_with fleb (shift (Close <$> valid)) (shift (Smooth_Support <$> valid))))
    (zip_with fgtb (RSI <$> valid) (shift (RSI <$> valid))).

Definition Sell_Signal (valid : list row) : list bool :=
  zip_with andb
    (zip_with andb
       (zip_with fltb (Close <$> valid) (Smooth_Resistance <$> valid))
       (zip_with fgeb (shift (Close <$> valid)) (shift (Smooth_Resistance <$> valid))))
    (zip_with fltb (RSI <$> valid) (shift (RSI <$> valid))).

Inductive action : Type := BUY | SELL | WAIT.

Record report : Type := mkReport {
  valid_rows : list row;
  buy : list bool;
  sell : list bool;
  latest : row;
  latest_buy : bool;
  latest_sell : bool;
  recommendation : action
}.

(** How a run of the script ends: an exception, [st.stop()] after the
    warning of line 124, or the recommendation and the table. *)
Inductive outcome : Type :=
  | Raised : exn -> outcome
  | Stopped : outcome
  | Completed : report -> outcome.

Definition advise (b s : bool) : action :=
  if b then BUY else if s then SELL else WAIT.

Definition pipeline (close : list Q) (rsiPeriod lookback smoothLength : Z)
  : outcome :=
  match indicators (Fin <$> close) rsiPeriod lookback smoothLength with
  | Raise e => Raised e
  | Ok c =>
      let valid := dropna (rows c) in
      match last valid with
      | None => Stopped
      | Some l =>
          let b := Buy_Signal valid in
          let s := Sell_Signal valid in
          let lb := default false (last b) in
          let ls := default false (last s) in
          Completed (mkReport valid b s l lb ls (advise lb ls))
      end
  end.

(** ** The table as it grows (lines 105-119)

    [prices] gains one column per assignment, and a line that raises
    leaves in it the columns assigned so far.  [indicators_script] follows
    the same lines as [indicators] and also returns the table as it stands
    when the lines have run or one of them has raised.  Of the columns that
    the provider delivers only Close is listed, the one the lines read. *)
Definition stored : Type := list (string * Series).

Definition indicators_script (close : Series)
  (rsiPeriod lookback smoothLength : Z) : stored * result unit :=
  let t := [("Close", close)] in
  match rsi_series close rsiPeriod with
  | Raise e => (t, Raise e)
  | Ok rsi =>
  let t := t ++ [("RSI", rsi)] in
  let rsi_diff := (fun r => fdiv (fabs (fsub r 50%Z)) 50%Z) <$> rsi in
  let t := t ++ [("RSI_diff", rsi_diff)] in
  match rolling lookback lookback smallest close with
  | Raise e => (t, Raise e)
  | Ok base_support =>
  let t := t ++ [("Base_Support", base_support)] in
  match rolling lookback lookback largest close with
  | Raise e => (t, Raise e)
  | Ok base_resistance =>
  let t := t ++ [("Base_Resistance", base_resistance)] in
  let range := zip_with fsub base_resistance base_support in
  let t := t ++ [("Range", range)] in
  let adj_support :=
    zip_with fsub base_support (zip_with fmul rsi_diff range) in
  let t := t ++ [("Adj_Support", adj_support)] in
  let adj_resistance :=
    zip_with fadd base_resistance (zip_with fmul rsi_diff range) in
  let t := t ++ [("Adj_Resistance", adj_resistance)] in
  let midline :=
    (fun x => fdiv x 2%Z) <$> zip_with fadd adj_support adj_resistance in
  let t := t ++ [("Midline", midline)] in
  match rolling smoothLength smoothLength mean adj_support with
  | Raise e => (t, Raise e)
  | Ok smooth_support =>
  let t := t ++ [("Smooth_Support", smooth_support)] in
  match rolling smoothLength smoothLength mean adj_resistance with
  | Raise e => (t, Raise e)
  | Ok smooth_resistance =>
  let t := t ++ [("Smooth_Resistance", smooth_resistance)] in
  match rolling smoothLength smoothLength mean midline with
  | Raise e => (t, Raise e)
  | Ok smooth_midline =>
      (t ++ [("Smooth_Midline", smooth_midline)], Ok tt)
  end end end end end end.

(** The table in which all twelve columns of [c] are stored. *)
Definition stored_columns (c : columns) : stored :=
  [("Close", cClose c); ("RSI", cRSI c); ("RSI_diff", cRSI_diff c);
   ("Base_Support", cBase_Support c); ("Base_Resistance", cBase_Resistance c);
   ("Range", cRange c); ("Adj_Support", cAdj_Support c);
   ("Adj_Resistance", cAdj_Resistance c); ("Midline", cMidline c);
   ("Smooth_Support", cSmooth_Support c);
   ("Smooth_Resistance", cSmooth_Resistance c);
   ("Smooth_Midline", cSmooth_Midline c)].

(** ** Reading the results *)

(** [x] is not NaN. *)
Definition defined (x : float64) : Prop := notna x = true.

Definition fle (x y : float64) : Prop := fleb x y = true.
Definition flt (x y : float64) : Prop := fltb x y = true.

(** [x] is a rational that satisfies [P]. *)
Definition fin_in (P : Q -> Prop) (x : float64) : Prop :=
  match x with
  | Fin q => P q
  | _ => False
  end.

Definition finite (x : float64) : Prop := fin_in (fun _ => True) x.

Definition Qsum (qs : list Q) : Q := foldr Qplus 0%Q qs.

Definition nonneg (q : Q) : Prop := (0 <= q)%Q.

(** Two values that are undefined together, or else rationals in order. *)
Definition ordered (x y : float64) : Prop :=
  (x = NaN /\ y = NaN) \/
  (exists p q, x = Fin p /\ y = Fin q /\ (p <= q)%Q).

(** What [indicators] assigns to each column, in terms of the columns
    assigned before it. *)
Definition assigned (close : Series) (P L S : Z) (c : columns) : Prop :=
  cClose c = close /\
  rsi_series close P = Ok (cRSI c) /\
  cRSI_diff c = (fun r => fdiv (fabs (fsub r 50%Z)) 50%Z) <$> cRSI c /\
  cBase_Support c = roll (Z.to_nat L) (Z.to_nat L) smallest close /\
  cBase_Resistance c = roll (Z.to_nat L) (Z.to_nat L) largest close /\
  cRange c = zip_with fsub (cBase_Resistance c) (cBase_Support c) /\
  cAdj_Support c =
    zip_with fsub (cBase_Support c) (zip_with fmul (cRSI_diff c) (cRange c)) /\
  cAdj_Resistance c =
    zip_with fadd (cBase_Resistance c) (zip_with fmul (cRSI_diff c) (cRange c)) /\
  cMidline c =
    (fun x => fdiv x 2%Z) <$> zip_with fadd (cAdj_Support c) (cAdj_Resistance c) /\
  cSmooth_Support c = roll (Z.to_nat S) (Z.to_nat S) mean (cAdj_Support c) /\
  cSmooth_Resistance c = roll (Z.to_nat S) (Z.to_nat S) mean (cAdj_Resistance c) /\
  cSmooth_Midline c = roll (Z.to_nat S) (Z.to_nat S) mean (cMidline c).

(** Every column has one entry per bar. *)
Definition aligned (c : columns) (n : nat) : Prop :=
  Forall (fun col : Series => length col = n)
    [cClose c; cRSI c; cRSI_diff c; cBase_Support c; cBase_Resistance c;
     cRange c; cAdj_Support c; cAdj_Resistance c; cMidline c;
     cSmooth_Support c; cSmooth_Resistance c; cSmooth_Midline c].

(** The valid region: the positions of the rows that [dropna] keeps. *)
Definition valid_positions (c : columns) : list nat :=
  index <$> dropna (rows c).

(** The oscillator is defined at every position after [lo] up to [hi]. *)
Definition oscillator_defined (c : columns) (lo hi : Z) : Prop :=
  forall j x, (lo < Z.of_nat j <= hi)%Z -> cRSI c !! j = Some x -> defined x.

(** The bounds that the three [st.number_input] widgets put on the
    parameters (lines 42-46). *)
Definition accepted_by_inputs (rsiPeriod lookback smoothLength : Z) : Prop :=
  (2 <= rsiPeriod <= 100)%Z /\ (5 <= lookback <= 1000)%Z /\
  (1 <= smoothLength <= 200)%Z.

(** ** Fetching the bars (lines 51-90)

    [yf.download] is the data provider: here a function of the symbol, the
    period and the interval that either fails with a message or answers
    with a table.  The cache that [st.cache_data] puts in front of
    [load_data] is not modelled. *)

(** The column labels of a table: plain names, or tuples of levels. *)
Inductive col_index : Type :=
  | Index (names : list string)
  | MultiIndex (tuples : list (string * list string)).

Record DataFrame : Type := mkFrame {
  df_columns : col_index;
  df_rows : list (list float64)
}.

Definition n_columns (c : col_index) : nat :=
  match c with
  | Index names => length names
  | MultiIndex tuples => length tuples
  end.

(** [len(df)] *)
Definition df_len (df : DataFrame) : nat := length (df_rows df).

(** [df.empty]: no row or no column. *)
Definition df_empty (df : DataFrame) : bool :=
  (df_len df =? 0) || (n_columns (df_columns df) =? 0).

(** [pd.DataFrame()] *)
Definition no_frame : DataFrame := mkFrame (Index []) [].

(** Lines 71-72: a [MultiIndex] is replaced by its first level. *)
Definition first_level (df : DataFrame) : DataFrame :=
  match df_columns df with
  | MultiIndex tuples => mkFrame (Index (fst <$> tuples)) (df_rows df)
  | Index _ => df
  end.

Definition combo : Type := string * string.
Definition trial : Type := string * string * nat.

Definition fallback_combos : list combo :=
  [("1y", "1d"); ("6mo", "1d"); ("1mo", "1h"); ("7d", "1h"); ("60d", "5m")].

Section Fetch.

Variable download : string -> string -> string -> string + DataFrame.

(** The loop of lines 66-77, with its two logs. *)
Fixpoint try_combos (sym : string) (combos : list combo)
  (attempts : list string) (tried : list trial) : DataFrame * list trial :=
  match combos with
  | [] => (no_frame, tried)
  | (p, i) :: rest =>
      match download sym p i with
      | inr df =>
          let tried := tried ++ [(p, i, df_len df)] in
          if df_empty df then try_combos sym rest attempts tried
          else (first_level df, tried)
      | inl e =>
          try_combos sym rest
            (attempts ++ [p +:+ "/" +:+ i +:+ " failed: " +:+ e]) tried
      end
  end.

Definition combos_of (per itv : string) (autofix : bool) : list combo :=
  [(per, itv)] ++ (if autofix then fallback_combos else []).

Definition load_data (sym per itv : string) (autofix : bool)
  : DataFrame * list trial :=
  try_combos sym (combos_of per itv autofix) [] [].

(** A combination is of no use when the download fails or answers with an
    empty table. *)
Definition useless (sym : string) (c : combo) : Prop :=
  match download sym c.1 c.2 with
  | inr df => df_empty df = true
  | inl _ => True
  end.

(** What the log [tried] holds for a list of combinations that were all
    attempted: one entry, with the number of rows, for each download that
    answered. *)
Definition answered (sym : string) (combos : list combo) : list trial :=
  omap (fun c : combo =>
          match download sym c.1 c.2 with
          | inr df => Some (c.1, c.2, df_len df)
          | inl _ => None
          end) combos.

End Fetch.

(** The oscillator of a list of closes; empty when [rsi_series] raises. *)
Definition table_of_rsi (qs : list Q) (period : Z) : Series :=
  match rsi_series (Fin <$> qs) period with
  | Ok rsi => rsi
  | Raise _ => []
  end.

(** Two series that hold the same values at the first [n] positions. *)
Definition agree (n : nat) (a b : Series) : Prop :=
  forall i, i < n -> a !! i = b !! i.

(** A series of closes without a single fall, and one without a rise. *)
Definition never_falls (qs : list Q) : Prop :=
  forall k a b, qs !! k = Some a -> qs !! S k = Some b -> (a <= b)%Q.

Definition never_rises (qs : list Q) : Prop :=
  forall k a b, qs !! k = Some a -> qs !! S k = Some b -> (b <= a)%Q.

(** ** Sample runs *)
(** A provider that has daily bars for one year only, answers with an
    empty table for one month, and fails for anything else. *)
Definition sample_frame : DataFrame :=
  mkFrame (MultiIndex [("Close", ["AAPL"]); ("Open", ["AAPL"])])
    [[Fin 2; Fin 1]; [Fin 3; Fin 2]].

Definition sample_download (sym per itv : string) : string + DataFrame :=
  if String.eqb per "1y" then inr sample_frame
  else if String.eqb per "1mo" then inr no_frame
  else inl "no data".


(** Six falling closes, then two rising ones. *)
Definition falling_then_rising : list Q :=
  inject_Z <$> [10; 9; 8; 7; 6; 5; 6; 7]%Z.

Definition no_columns : columns :=
  mkColumns [] [] [] [] [] [] [] [] [] [] [] [].

Definition table_of (r : result columns) : columns :=
  match r with
  | Ok c => c
  | Raise _ => no_columns
  end.

Definition sample_table : columns :=
  Eval vm_compute in table_of (indicators (Fin <$> falling_then_rising) 2 2 3).

Definition report_of (o : outcome) : report :=
  match o with
  | Completed rep => rep
  | _ => mkReport [] [] [] (row_at no_columns 0) false false WAIT
  end.

Definition sample_report : report :=
  Eval vm_compute in report_of (pipeline falling_then_rising 2 2 3).

(** Four rising closes, then the price stays put. *)
Definition rising_then_flat : list Q :=
  inject_Z <$> [1; 2; 3; 4; 5; 5; 5]%Z.

(** The table of [rising_then_flat] with lookback 2 and no smoothing. *)
Definition flat_tail_table : columns :=
  Eval vm_compute in table_of (indicators (Fin <$> rising_then_flat) 2 2 1).

(** ** Doubles *)

Lemma fle_Fin p q : fle (Fin p) (Fin q) <-> (p <= q)%Q.
Proof. unfold fle; simpl. apply Qle_bool_iff. Qed.

Lemma flt_Fin p q : flt (Fin p) (Fin q) <-> (p < q)%Q.
Proof. unfold flt; simpl. apply QMicromega.Qlt_bool_iff. Qed.

Lemma Qzero_true q : Qzero q = true <-> q == 0.
Proof. apply Qeq_bool_iff. Qed.

Lemma Qzero_false q : Qzero q = false <-> ~ q == 0.
Proof.
  rewrite <- Qzero_true. destruct (Qzero q); split; congruence.
Qed.

Lemma Qlt_bool_false p q : QMicromega.Qlt_bool p q = false <-> (q <= p)%Q.
Proof.
  pose proof (QMicromega.Qlt_bool_iff p q) as H.
  destruct (QMicromega.Qlt_bool p q); split; intros H1; try congruence.
  - destruct H as [H _]. specialize (H eq_refl). lra.
  - apply Qnot_lt_le. intros H2. apply H in H2. congruence.
Qed.

(** Case analysis on a double known to be a rational. *)
Ltac fin_cases x H :=
  destruct x as [| |?q]; [exfalso; exact H | exfalso; exact H | ].

(** Linear arithmetic after exposing the integer constants. *)
Ltac qlra := unfold nonneg, of_Z, inject_Z in *; lra.

Lemma fin_in_inv P x : fin_in P x -> exists q, x = Fin q /\ P q.
Proof. destruct x; simpl; try tauto. eauto. Qed.

Lemma fin_in_weaken (P R : Q -> Prop) x :
  (forall q, P q -> R q) -> fin_in P x -> fin_in R x.
Proof. destruct x; simpl; auto. Qed.

Lemma fin_in_defined P x : fin_in P x -> defined x.
Proof. destruct x; simpl; try tauto. reflexivity. Qed.

Lemma defined_Fin q : defined (Fin q).
Proof. reflexivity. Qed.

Lemma not_defined_NaN : ~ defined NaN.
Proof. cbv. congruence. Qed.

Lemma not_defined x : ~ defined x -> x = NaN.
Proof. destruct x; cbv; congruence. Qed.

(** ** Series *)

Lemma length_shift s : length (shift s) = length s.
Proof. unfold shift. rewrite length_take. simpl. lia. Qed.

Lemma lookup_shift_0 s : s <> [] -> shift s !! 0 = Some NaN.
Proof. intros H. destruct s; [congruence | reflexivity]. Qed.

Lemma lookup_shift_S s i : S i < length s -> shift s !! S i = s !! i.
Proof.
  intros H. unfold shift. rewrite lookup_take.
  destruct (decide (S i < length s)); [reflexivity | lia].
Qed.

Lemma length_window {A} w i (s : list A) :
  i < length s -> length (window w i s) = w `min` S i.
Proof.
  intros H. unfold window. rewrite length_drop, length_take. lia.
Qed.

Lemma lookup_window {A} w i (s : list A) k :
  k < w `min` S i -> window w i s !! k = s !! (S i - w + k).
Proof.
  intros H. unfold window. rewrite lookup_drop, lookup_take.
  destruct (decide (S i - w + k < S i)); [reflexivity | lia].
Qed.

Lemma window_fmap {A B} (f : A -> B) w i (s : list A) :
  window w i (f <$> s) = f <$> window w i s.
Proof. unfold window. now rewrite fmap_drop, fmap_take. Qed.

Lemma Forall_window {A} (P : A -> Prop) w i (s : list A) :
  Forall P s -> Forall P (window w i s).
Proof. intros H. unfold window. now apply Forall_drop, Forall_take. Qed.

Lemma Forall2_window {A B} (P : A -> B -> Prop) w i s t :
  Forall2 P s t -> Forall2 P (window w i s) (window w i t).
Proof. intros H. unfold window. now apply Forall2_drop, Forall2_take. Qed.

(** The window at [i] is all that lies between [i+1-w] and [i]. *)
Lemma Forall_window_iff {A} (P : A -> Prop) w i (s : list A) :
  i < length s ->
  Forall P (window w i s) <->
  (forall j x, S i - w <= j <= i -> s !! j = Some x -> P x).
Proof.
  intros Hi. rewrite Forall_lookup. split.
  - intros H j x Hj Hx. apply (H (j - (S i - w))).
    rewrite lookup_window by lia.
    replace (S i - w + (j - (S i - w))) with j by lia. exact Hx.
  - intros H k x Hk.
    assert (k < w `min` S i) as Hlt.
    { apply lookup_lt_Some in Hk. rewrite length_window in Hk; lia. }
    rewrite lookup_window in Hk by exact Hlt.
    apply (H (S i - w + k) x); [lia | exact Hk].
Qed.

Lemma length_roll w m agg s : length (roll w m agg s) = length s.
Proof. apply length_imap. Qed.

Lemma lookup_roll w m agg s i :
  i < length s -> roll w m agg s !! i = Some (roll_at w m agg s i).
Proof.
  intros H. unfold roll. rewrite list_lookup_imap.
  destruct (lookup_lt_is_Some_2 s i H) as [x ->]. reflexivity.
Qed.

Lemma at_lookup s i x : s !! i = Some x -> at_ s i = x.
Proof. unfold at_. now intros ->. Qed.

Lemma lookup_at s i : i < length s -> s !! i = Some (at_ s i).
Proof.
  intros H. destruct (lookup_lt_is_Some_2 s i H) as [x Hx].
  now rewrite (at_lookup _ _ _ Hx).
Qed.

Lemma at_roll w m agg s i :
  i < length s -> at_ (roll w m agg s) i = roll_at w m agg s i.
Proof. intros H. apply at_lookup, lookup_roll, H. Qed.

Lemma at_fmap (f : float64 -> float64) s i :
  i < length s -> at_ (f <$> s) i = f (at_ s i).
Proof.
  intros H. apply at_lookup. rewrite list_lookup_fmap, (lookup_at _ _ H).
  reflexivity.
Qed.

Lemma at_zip_with (f : float64 -> float64 -> float64) s t i :
  i < length s -> i < length t ->
  at_ (zip_with f s t) i = f (at_ s i) (at_ t i).
Proof.
  intros Hs Ht. apply at_lookup.
  rewrite lookup_zip_with, (lookup_at _ _ Hs), (lookup_at _ _ Ht).
  reflexivity.
Qed.

(** All observations count when none is NaN. *)
Lemma filter_defined_all (s : Series) :
  Forall defined s -> filter (fun x => notna x = true) s = s.
Proof.
  induction 1 as [|x s Hx _ IH]; [reflexivity|].
  rewrite filter_cons. destruct (decide (notna x = true)) as [_|n].
  - now rewrite IH.
  - now destruct n.
Qed.

Lemma filter_defined_short (s : Series) :
  ~ Forall defined s ->
  length (filter (fun x => notna x = true) s) < length s.
Proof.
  intros H. apply not_Forall_Exists in H; [|intros x; unfold defined; apply _].
  apply Exists_exists in H as (x & Hin & Hx).
  eapply length_filter_lt; eauto.
Qed.

(** ** Rolling windows *)

(** Strict windows ([min_periods] is the width): a value needs a full
    window without NaN. *)
Lemma roll_at_strict w agg s i :
  i < length s -> 1 <= w <= S i -> Forall defined (window w i s) ->
  roll_at w w agg s i = agg (window w i s).
Proof.
  intros Hi Hw Hall. unfold roll_at.
  rewrite (filter_defined_all _ Hall), (length_window _ _ _ Hi).
  replace (w `min` S i) with w by lia.
  rewrite (proj2 (Nat.leb_le w w)) by lia.
  rewrite (proj2 (Nat.ltb_lt 0 w)) by lia. reflexivity.
Qed.

Lemma roll_at_strict_NaN w agg s i :
  i < length s -> ~ (1 <= w <= S i /\ Forall defined (window w i s)) ->
  roll_at w w agg s i = NaN.
Proof.
  intros Hi Hn. unfold roll_at.
  destruct (decide (Forall defined (window w i s))) as [Hall|Hall].
  - rewrite (filter_defined_all _ Hall), (length_window _ _ _ Hi).
    destruct (Nat.leb_spec w (w `min` S i)) as [H1|H1]; [|reflexivity].
    destruct (Nat.ltb_spec 0 (w `min` S i)) as [H2|H2]; [|reflexivity].
    exfalso. apply Hn. split; [lia | exact Hall].
  - pose proof (filter_defined_short _ Hall) as Hlt.
    rewrite (length_window _ _ _ Hi) in Hlt.
    rewrite (proj2 (Nat.leb_gt _ _)) by lia. reflexivity.
Qed.

(** Expanding windows ([min_periods=1]) over a series without NaN. *)
Lemma roll_at_expanding w agg s i :
  i < length s -> 1 <= w -> Forall defined s ->
  roll_at w 1 agg s i = agg (window w i s).
Proof.
  intros Hi Hw Hall. unfold roll_at.
  rewrite (filter_defined_all _ (Forall_window _ _ _ _ Hall)).
  rewrite (length_window _ _ _ Hi).
  rewrite (proj2 (Nat.leb_le 1 _)) by lia.
  rewrite (proj2 (Nat.ltb_lt 0 _)) by lia. reflexivity.
Qed.

(** ** Aggregates of rational observations *)

Lemma Forall_finite_fmap (s : Series) :
  Forall finite s -> exists qs, s = Fin <$> qs.
Proof.
  induction 1 as [|x s Hx _ [qs ->]]; [now exists []|].
  apply fin_in_inv in Hx as (q & -> & _). now exists (q :: qs).
Qed.

Lemma fsum_Fin qs : fsum (Fin <$> qs) = Fin (Qsum qs).
Proof.
  induction qs as [|q qs IH]; [reflexivity|].
  change (fsum (Fin <$> q :: qs)) with (fadd (Fin q) (fsum (Fin <$> qs))).
  now rewrite IH.
Qed.

Lemma Qsum_nonneg qs : Forall (fun q => 0 <= q)%Q qs -> (0 <= Qsum qs)%Q.
Proof.
  induction 1 as [|q qs Hq _ IH]; simpl; [lra|].
  unfold Qsum in *; simpl. lra.
Qed.

Lemma Qsum_zero qs :
  Forall (fun q => 0 <= q)%Q qs -> Qsum qs == 0 -> Forall (fun q => q == 0) qs.
Proof.
  induction 1 as [|q qs Hq Hqs IH]; [constructor|].
  unfold Qsum in *; simpl. intros H0.
  pose proof (Qsum_nonneg _ Hqs) as Hs. unfold Qsum in Hs.
  constructor; [lra | apply IH; lra].
Qed.

Lemma Qsum_le qs rs : Forall2 Qle qs rs -> (Qsum qs <= Qsum rs)%Q.
Proof.
  induction 1 as [|q r qs rs Hqr _ IH]; unfold Qsum in *; simpl; lra.
Qed.

Lemma length_pos_Q {A} (l : list A) :
  l <> [] -> (0 < inject_Z (Z.of_nat (length l)))%Q.
Proof.
  intros H. destruct l; [congruence|].
  replace 0%Q with (inject_Z 0) by reflexivity.
  rewrite <- Zlt_Qlt. simpl length. lia.
Qed.

Lemma mean_Fin qs :
  qs <> [] ->
  mean (Fin <$> qs) = Fin (Qsum qs / inject_Z (Z.of_nat (length qs))).
Proof.
  intros H. unfold mean. rewrite fsum_Fin, length_fmap. unfold of_Z; simpl.
  pose proof (length_pos_Q _ H) as Hpos.
  rewrite (proj2 (Qzero_false _)); [reflexivity | lra].
Qed.

Lemma smallest_Fin q qs :
  exists m, smallest (Fin <$> q :: qs) = Fin m /\ (m <= q)%Q.
Proof.
  simpl. induction qs as [|r qs (m & IH & Hm)]; simpl.
  - exists q. split; [reflexivity | lra].
  - rewrite IH. unfold fmin; simpl.
    destruct (Qle_bool r m) eqn:E.
    + apply Qle_bool_iff in E. exists r. split; [reflexivity | lra].
    + exists m. split; [reflexivity | lra].
Qed.

Lemma largest_Fin q qs :
  exists M, largest (Fin <$> q :: qs) = Fin M /\ (q <= M)%Q.
Proof.
  simpl. induction qs as [|r qs (M & IH & HM)]; simpl.
  - exists q. split; [reflexivity | lra].
  - rewrite IH. unfold fmax; simpl.
    destruct (Qle_bool r M) eqn:E.
    + exists M. split; [reflexivity | lra].
    + exists r. split; [reflexivity|].
      assert (~ (r <= M)%Q) by (rewrite <- Qle_bool_iff; congruence). lra.
Qed.

(** ** Building a rolling object *)

Lemma rolling_Ok win mp agg s r :
  rolling win mp agg s = Ok r <->
  (0 <= mp <= win)%Z /\ r = roll (Z.to_nat win) (Z.to_nat mp) agg s.
Proof.
  unfold rolling, rolling_validate, mbind, result_bind.
  destruct (Z.ltb_spec mp 0); [split; [discriminate | lia]|].
  destruct (Z.ltb_spec win mp); [split; [discriminate | lia]|].
  destruct (Z.ltb_spec win 0); [lia|].
  split.
  - intros [= <-]. split; [lia | reflexivity].
  - now intros [_ ->].
Qed.

Lemma rolling_Raise win mp agg s e :
  rolling win mp agg s = Raise e <-> ~ (0 <= mp <= win)%Z.
Proof.
  unfold rolling, rolling_validate, mbind, result_bind.
  destruct (Z.ltb_spec mp 0); [split; [lia | now destruct e]|].
  destruct (Z.ltb_spec win mp); [split; [lia | now destruct e]|].
  destruct (Z.ltb_spec win 0); [lia|].
  split; [discriminate | lia].
Qed.

(** ** The oscillator *)

Lemma np_where_fmap (f : float64 -> bool) (g : float64 -> float64) c d :
  np_where (f <$> d) (g <$> d) c = (fun x => if f x then g x else c) <$> d.
Proof.
  unfold np_where. induction d as [|x d IH]; [reflexivity|].
  simpl. f_equal. exact IH.
Qed.

Lemma length_diff s : length (diff s) = length s.
Proof. unfold diff. rewrite length_zip_with, length_shift. lia. Qed.

Lemma gain_eq close :
  gain close = (fun d => if fgtb d 0%Z then d else 0%Z) <$> diff close.
Proof.
  unfold gain. rewrite <- (np_where_fmap _ (fun x => x)).
  now rewrite list_fmap_id.
Qed.

Lemma loss_eq close :
  loss close = (fun d => if fltb d 0%Z then fneg d else 0%Z) <$> diff close.
Proof. unfold loss. apply np_where_fmap. Qed.

Lemma length_gain close : length (gain close) = length close.
Proof. now rewrite gain_eq, length_fmap, length_diff. Qed.

Lemma length_loss close : length (loss close) = length close.
Proof. now rewrite loss_eq, length_fmap, length_diff. Qed.

(** A difference of rational closes is a rational, or NaN at the start. *)
Lemma diff_Fin qs :
  Forall (fun d => d = NaN \/ finite d) (diff (Fin <$> qs)).
Proof.
  unfold diff. apply Forall_zip_with_fst with (P := finite).
  - apply Forall_fmap, Forall_true. intros q. exact I.
  - unfold shift. apply Forall_take. constructor.
    + intros x _. destruct x; simpl; auto.
    + apply Forall_fmap, Forall_true. intros q x Hx.
      fin_cases x Hx. right. exact I.
Qed.

Lemma gain_nonneg qs : Forall (fin_in nonneg) (gain (Fin <$> qs)).
Proof.
  rewrite gain_eq. apply Forall_fmap.
  eapply Forall_impl; [apply diff_Fin|].
  intros d [->|Hd]; unfold nonneg; simpl; [qlra|].
  fin_cases d Hd. unfold fgtb; simpl.
  destruct (QMicromega.Qlt_bool (inject_Z 0) q) eqn:E; simpl; [|qlra].
  apply QMicromega.Qlt_bool_iff in E. qlra.
Qed.

Lemma loss_nonneg qs : Forall (fin_in nonneg) (loss (Fin <$> qs)).
Proof.
  rewrite loss_eq. apply Forall_fmap.
  eapply Forall_impl; [apply diff_Fin|].
  intros d [->|Hd]; unfold nonneg; simpl; [qlra|].
  fin_cases d Hd. simpl.
  destruct (QMicromega.Qlt_bool q (inject_Z 0)) eqn:E; simpl; [|qlra].
  apply QMicromega.Qlt_bool_iff in E. qlra.
Qed.

Lemma Forall_nonneg_fmap (s : Series) :
  Forall (fin_in nonneg) s ->
  exists qs, s = Fin <$> qs /\ Forall nonneg qs.
Proof.
  induction 1 as [|x s Hx _ (qs & -> & Hqs)]; [now exists []|].
  apply fin_in_inv in Hx as (q & -> & Hq). exists (q :: qs).
  split; [reflexivity | now constructor].
Qed.

(** The trailing average of non-negative numbers over an expanding window
    is a non-negative number; it is zero only if the window is all zero. *)
Lemma average_nonneg w s i :
  1 <= w -> i < length s -> Forall (fin_in nonneg) s ->
  exists a, roll_at w 1 mean s i = Fin a /\ (0 <= a)%Q /\
    (a == 0 -> Forall (fun x => feq x 0%Z) (window w i s)).
Proof.
  intros Hw Hi Hs.
  rewrite roll_at_expanding; [|assumption..|].
  2:{ eapply Forall_impl; [exact Hs|]. intros x. apply fin_in_defined. }
  pose proof (length_window w i s Hi) as Hlen.
  destruct (Forall_nonneg_fmap _ (Forall_window _ w i _ Hs)) as (qs & Hqs & Hnn).
  rewrite Hqs in *. rewrite length_fmap in Hlen.
  assert (qs <> []) as Hne by (intros ->; simpl in Hlen; lia).
  rewrite (mean_Fin _ Hne). eexists. split; [reflexivity|].
  pose proof (length_pos_Q _ Hne) as Hpos.
  pose proof (Qsum_nonneg _ Hnn) as Hsum.
  split.
  - apply Qle_shift_div_l; [exact Hpos | lra].
  - intros H0. apply Forall_fmap.
    assert (Qsum qs == 0) as Hz.
    { rewrite <- (Qmult_div_r (Qsum qs) (inject_Z (Z.of_nat (length qs)))) by lra.
      rewrite H0. lra. }
    eapply Forall_impl; [apply (Qsum_zero _ Hnn Hz)|].
    intros q Hq. exact Hq.
Qed.

(** The three cases of [100 - 100 / (1 + avg_gain / avg_loss)]. *)
Lemma rsi_of_cases g l :
  (0 <= g)%Q -> (0 <= l)%Q ->
  (l == 0 /\ g == 0 /\ rsi_of (fdiv (Fin g) (Fin l)) = NaN) \/
  (l == 0 /\ (0 < g)%Q /\ rsi_of (fdiv (Fin g) (Fin l)) = 100%Z) \/
  ((0 < l)%Q /\ exists q, rsi_of (fdiv (Fin g) (Fin l)) = Fin q /\
     (0 <= q <= 100)%Q /\ q == 100 - 100 / (1 + g / l)).
Proof.
  intros Hg Hl. unfold fdiv.
  destruct (Qzero l) eqn:El.
  - apply Qzero_true in El. destruct (Qzero g) eqn:Eg.
    + apply Qzero_true in Eg. left. auto.
    + apply Qzero_false in Eg. right; left.
      assert (0 < g)%Q as Hpos by lra.
      unfold Qneg. rewrite (proj2 (Qlt_bool_false g 0)) by lra.
      repeat split; [exact El | exact Hpos].
  - apply Qzero_false in El. right; right.
    assert (0 < l)%Q as Hpos by lra. split; [exact Hpos|].
    assert (0 <= g / l)%Q as Hr by (apply Qle_shift_div_l; lra).
    unfold rsi_of, fsub, fadd, fdiv, of_Z, fneg.
    change (inject_Z 1) with 1%Q. change (inject_Z 100) with 100%Q.
    rewrite (proj2 (Qzero_false (1 + g / l))) by lra.
    eexists. split; [reflexivity|].
    set (r := (g / l)%Q) in *.
    assert (0 <= 100 / (1 + r))%Q by (apply Qle_shift_div_l; lra).
    assert (100 / (1 + r) <= 100)%Q by (apply Qle_shift_div_r; lra).
    set (x := (100 / (1 + r))%Q) in *.
    repeat split; lra.
Qed.

Lemma rsi_series_Ok close P rsi :
  rsi_series close P = Ok rsi <->
  (1 <= P)%Z /\
  rsi = rsi_of <$> zip_with fdiv (roll (Z.to_nat P) 1 mean (gain close))
                                 (roll (Z.to_nat P) 1 mean (loss close)).
Proof.
  unfold rsi_series, avg_gain, avg_loss.
  destruct (rolling P 1 mean (gain close)) as [ag|e] eqn:Eg.
  - apply rolling_Ok in Eg as [HP ->].
    destruct (rolling P 1 mean (loss close)) as [al|e] eqn:El.
    + apply rolling_Ok in El as [_ ->]. simpl. split.
      * intros [= <-]. split; [lia | reflexivity].
      * now intros [_ ->].
    + apply rolling_Raise in El. lia.
  - apply rolling_Raise in Eg. simpl. split; [discriminate | lia].
Qed.

Lemma rsi_series_Raise close P e :
  rsi_series close P = Raise e <-> (P < 1)%Z.
Proof.
  destruct (rsi_series close P) as [rsi|e'] eqn:E.
  - apply rsi_series_Ok in E as [HP _]. split; [discriminate | lia].
  - split; [intros _ | now destruct e, e'].
    destruct (Z.lt_ge_cases P 1) as [H|H]; [exact H|].
    assert (rsi_series close P = Ok
      (rsi_of <$> zip_with fdiv (roll (Z.to_nat P) 1 mean (gain close))
                                (roll (Z.to_nat P) 1 mean (loss close)))) as E'.
    { apply rsi_series_Ok. split; [lia | reflexivity]. }
    congruence.
Qed.

Lemma length_rsi_series close P rsi :
  rsi_series close P = Ok rsi -> length rsi = length close.
Proof.
  intros H. apply rsi_series_Ok in H as [_ ->].
  rewrite length_fmap, length_zip_with, !length_roll, length_gain, length_loss.
  lia.
Qed.

(** The oscillator at one position, from the two trailing averages. *)
Lemma rsi_series_at qs P rsi i :
  rsi_series (Fin <$> qs) P = Ok rsi -> i < length qs ->
  exists g l,
    roll_at (Z.to_nat P) 1 mean (gain (Fin <$> qs)) i = Fin g /\
    roll_at (Z.to_nat P) 1 mean (loss (Fin <$> qs)) i = Fin l /\
    (0 <= g)%Q /\ (0 <= l)%Q /\
    rsi !! i = Some (rsi_of (fdiv (Fin g) (Fin l))).
Proof.
  intros H Hi. apply rsi_series_Ok in H as [HP ->].
  assert (i < length (gain (Fin <$> qs))) as Hg
    by now rewrite length_gain, length_fmap.
  assert (i < length (loss (Fin <$> qs))) as Hl
    by now rewrite length_loss, length_fmap.
  destruct (average_nonneg (Z.to_nat P) _ i ltac:(lia) Hg (gain_nonneg qs))
    as (g & Eg & Hg0 & _).
  destruct (average_nonneg (Z.to_nat P) _ i ltac:(lia) Hl (loss_nonneg qs))
    as (l & El & Hl0 & _).
  exists g, l. repeat split; try assumption.
  rewrite list_lookup_fmap, lookup_zip_with, !lookup_roll by assumption.
  simpl. now rewrite Eg, El.
Qed.

(** Every value of the oscillator is NaN or lies between 0 and 100. *)
Lemma rsi_series_range qs P rsi i x :
  rsi_series (Fin <$> qs) P = Ok rsi -> rsi !! i = Some x ->
  x = NaN \/ fin_in (fun q => 0 <= q <= 100)%Q x.
Proof.
  intros H Hx.
  assert (i < length qs) as Hi.
  { apply lookup_lt_Some in Hx.
    now rewrite (length_rsi_series _ _ _ H), length_fmap in Hx. }
  destruct (rsi_series_at _ _ _ _ H Hi) as (g & l & _ & _ & Hg & Hl & E).
  rewrite E in Hx. assert (x = rsi_of (fdiv (Fin g) (Fin l))) as -> by congruence.
  destruct (rsi_of_cases g l Hg Hl)
    as [(_ & _ & Er)|[(_ & _ & Er)|(_ & q & Er & Hq & _)]]; rewrite Er.
  - now left.
  - right. unfold of_Z; simpl. unfold inject_Z. lra.
  - right. exact Hq.
Qed.

(** ** The table of indicators *)

Lemma rolling_strict_Ok w agg s r :
  rolling w w agg s = Ok r <->
  (0 <= w)%Z /\ r = roll (Z.to_nat w) (Z.to_nat w) agg s.
Proof. rewrite rolling_Ok. intuition lia. Qed.

Lemma rolling_strict_Raise w agg s e :
  rolling w w agg s = Raise e <-> (w < 0)%Z.
Proof. rewrite rolling_Raise. lia. Qed.

Lemma indicators_Ok close P L S c :
  indicators close P L S = Ok c ->
  ((1 <= P)%Z /\ (0 <= L)%Z /\ (0 <= S)%Z) /\ assigned close P L S c.
Proof.
  unfold indicators, assigned.
  destruct (rsi_series close P) as [rsi|e] eqn:Er; [|discriminate].
  pose proof (proj1 (rsi_series_Ok _ _ _) Er) as [HP _].
  cbn [mbind result_bind].
  destruct (rolling L L smallest close) as [bs|e] eqn:Ebs; [|discriminate].
  apply rolling_strict_Ok in Ebs as [HL ->].
  destruct (rolling L L largest close) as [br|e] eqn:Ebr; [|discriminate].
  apply rolling_strict_Ok in Ebr as [_ ->].
  cbn [mbind result_bind].
  match goal with |- context [rolling S S mean ?a] =>
    destruct (rolling S S mean a) as [ss|e] eqn:Ess; [|discriminate] end.
  apply rolling_strict_Ok in Ess as [HS ->].
  match goal with |- context [rolling S S mean ?a] =>
    destruct (rolling S S mean a) as [sr|e] eqn:Esr; [|discriminate] end.
  apply rolling_strict_Ok in Esr as [_ ->].
  match goal with |- context [rolling S S mean ?a] =>
    destruct (rolling S S mean a) as [sm|e] eqn:Esm; [|discriminate] end.
  apply rolling_strict_Ok in Esm as [_ ->].
  cbn [mbind result_bind]. intros [= <-]. simpl.
  repeat split; (lia || reflexivity).
Qed.

Lemma indicators_total close P L S :
  (1 <= P)%Z -> (0 <= L)%Z -> (0 <= S)%Z ->
  exists c, indicators close P L S = Ok c.
Proof.
  intros HP HL HS. unfold indicators.
  destruct (rsi_series close P) as [rsi|e] eqn:Er.
  2:{ apply rsi_series_Raise in Er. lia. }
  cbn [mbind result_bind].
  rewrite (proj2 (rolling_strict_Ok L smallest close _) (conj HL eq_refl)).
  rewrite (proj2 (rolling_strict_Ok L largest close _) (conj HL eq_refl)).
  cbn [mbind result_bind].
  repeat match goal with |- context [rolling S S mean ?a] =>
    rewrite (proj2 (rolling_strict_Ok S mean a _) (conj HS eq_refl));
    cbn [mbind result_bind] end.
  eexists. reflexivity.
Qed.

Lemma indicators_Raise close P L S e :
  indicators close P L S = Raise e <-> (P < 1)%Z \/ (L < 0)%Z \/ (S < 0)%Z.
Proof.
  split.
  - intros H.
    destruct (Z.lt_ge_cases P 1); [auto|].
    destruct (Z.lt_ge_cases L 0); [auto|].
    destruct (Z.lt_ge_cases S 0); [auto|].
    destruct (indicators_total close P L S) as [c Hc]; [lia..|]. congruence.
  - intros H. destruct (indicators close P L S) as [c|e'] eqn:E.
    + apply indicators_Ok in E. lia.
    + now destruct e, e'.
Qed.

(** The adjusted channel of one row, from its oscillator and base levels. *)
Lemma adjusted_Fin r m M :
  (0 <= r <= 100)%Q -> (m <= M)%Q ->
  let d := fdiv (fabs (fsub (Fin r) 50%Z)) 50%Z in
  let range := fsub (Fin M) (Fin m) in
  exists a b mid,
    fsub (Fin m) (fmul d range) = Fin a /\
    fadd (Fin M) (fmul d range) = Fin b /\
    fdiv (fadd (Fin a) (Fin b)) 2%Z = Fin mid /\
    (a <= m)%Q /\ (M <= b)%Q /\ (a <= mid <= b)%Q.
Proof.
  intros Hr HmM. cbv zeta. unfold fsub, fneg, fadd, fabs, of_Z.
  change (inject_Z 50) with 50%Q. change (inject_Z 2) with 2%Q.
  unfold fdiv at 2. change (Qzero 50) with false. cbv iota.
  unfold fmul, fdiv. change (Qzero 2) with false. cbv iota.
  do 3 eexists. split; [reflexivity|]. split; [reflexivity|].
  split; [reflexivity|].
  match goal with |- context [Qabs ?t] =>
    pose proof (Qabs_nonneg t) as Habs; set (x := Qabs t) in * end.
  assert (0 <= x / 50)%Q as Hd by (apply Qle_shift_div_l; lra).
  assert (0 <= x / 50 * (M + - m))%Q as He
    by (apply Qmult_le_0_compat; lra).
  set (e := (x / 50 * (M + - m))%Q) in *.
  match goal with |- context [(?t / 2)%Q] =>
    assert (2 * (t / 2) == t) as Hh by (apply Qmult_div_r; lra);
    set (h := (t / 2)%Q) in * end.
  repeat split; lra.
Qed.

Lemma adjusted_NaN rsi bs br :
  rsi = NaN \/ (bs = NaN /\ br = NaN) ->
  let d := fdiv (fabs (fsub rsi 50%Z)) 50%Z in
  let range := fsub br bs in
  let a := fsub bs (fmul d range) in
  let b := fadd br (fmul d range) in
  a = NaN /\ b = NaN /\ fdiv (fadd a b) 2%Z = NaN.
Proof.
  intros [->|[-> ->]]; cbv zeta.
  - simpl. destruct bs, br; simpl; repeat split; reflexivity || (destruct (Bool.eqb _ _); reflexivity).
  - destruct (fdiv (fabs (fsub rsi 50%Z)) 50%Z); simpl; auto.
Qed.

(** ** Smoothing keeps the order of two series *)

Lemma ordered_defined x y : ordered x y -> (defined x <-> defined y).
Proof.
  intros [[-> ->]|(p & q & -> & -> & _)]; [reflexivity|].
  split; intros _; apply defined_Fin.
Qed.

Lemma ordered_refl x : x = NaN \/ finite x -> ordered x x.
Proof.
  intros [->|H]; [now left|]. fin_cases x H.
  right. exists q, q. repeat split; lra.
Qed.

Lemma Forall2_ordered_defined A B :
  Forall2 ordered A B -> (Forall defined A <-> Forall defined B).
Proof.
  induction 1 as [|x y A B Hxy _ IH]; [split; constructor|].
  rewrite !Forall_cons, IH, (ordered_defined _ _ Hxy). reflexivity.
Qed.

Lemma Forall2_ordered_Fin A B :
  Forall2 ordered A B -> Forall defined A ->
  exists pa pb, A = Fin <$> pa /\ B = Fin <$> pb /\ Forall2 Qle pa pb.
Proof.
  induction 1 as [|x y A B Hxy _ IH]; intros Hall.
  - exists [], []. repeat split; constructor.
  - apply Forall_cons in Hall as [Hx Hall].
    destruct (IH Hall) as (pa & pb & -> & -> & Hle).
    destruct Hxy as [[-> _]|(p & q & -> & -> & Hpq)].
    + now apply not_defined_NaN in Hx.
    + exists (p :: pa), (q :: pb). repeat split. now constructor.
Qed.

Lemma mean_le pa pb :
  pa <> [] -> Forall2 Qle pa pb ->
  ordered (mean (Fin <$> pa)) (mean (Fin <$> pb)).
Proof.
  intros Hne Hle. pose proof (Forall2_length _ _ _ Hle) as Hlen.
  assert (pb <> []) as Hne' by (destruct pa, pb; simpl in *; congruence).
  rewrite (mean_Fin _ Hne), (mean_Fin _ Hne'), <- Hlen.
  right. do 2 eexists. split; [reflexivity|]. split; [reflexivity|].
  pose proof (length_pos_Q _ Hne) as Hpos.
  unfold Qdiv. apply Qmult_le_compat_r; [now apply Qsum_le|].
  apply Qinv_le_0_compat. lra.
Qed.

Lemma ordered_roll_mean s A B i :
  Forall2 ordered A B -> i < length A ->
  ordered (roll_at s s mean A i) (roll_at s s mean B i).
Proof.
  intros HAB Hi.
  assert (i < length B) as Hi' by now rewrite <- (Forall2_length _ _ _ HAB).
  pose proof (Forall2_window _ s i _ _ HAB) as Hw.
  pose proof (Forall2_ordered_defined _ _ Hw) as Hiff.
  destruct (decide (1 <= s <= S i /\ Forall defined (window s i A)))
    as [[Hs Hall]|Hn].
  - rewrite !roll_at_strict; try assumption; [|now apply Hiff].
    destruct (Forall2_ordered_Fin _ _ Hw Hall) as (pa & pb & Ea & Eb & Hle).
    rewrite Ea, Eb. apply mean_le; [|exact Hle].
    intros ->. pose proof (length_window s i A Hi) as Hlen.
    rewrite Ea in Hlen. simpl in Hlen. lia.
  - rewrite !roll_at_strict_NaN; try assumption; [now left|].
    rewrite <- Hiff. exact Hn.
Qed.

(** A smoothed value exists exactly on a full window without NaN. *)
Lemma roll_mean_defined s A i :
  Forall (fun x => x = NaN \/ finite x) A -> i < length A ->
  defined (roll_at s s mean A i) <->
  1 <= s <= S i /\ Forall defined (window s i A).
Proof.
  intros HA Hi.
  destruct (decide (1 <= s <= S i /\ Forall defined (window s i A)))
    as [[Hs Hall]|Hn].
  - split; [intros _; now split|intros _].
    assert (Forall2 ordered A A) as HAA.
    { apply Forall_Forall2_diag. eapply Forall_impl; [exact HA|].
      intros x. apply ordered_refl. }
    destruct (ordered_roll_mean s A A i HAA Hi) as [[E _]|(p & _ & E & _)].
    + rewrite roll_at_strict in E by assumption.
      destruct (Forall2_ordered_Fin _ _ (Forall2_window _ s i _ _ HAA) Hall)
        as (pa & _ & Ea & _).
      rewrite Ea in E. rewrite mean_Fin in E; [discriminate|].
      intros ->. pose proof (length_window s i A Hi) as Hlen.
      rewrite Ea in Hlen. simpl in Hlen. lia.
    + rewrite E. apply defined_Fin.
  - rewrite roll_at_strict_NaN by assumption.
    split; [intros H; now apply not_defined_NaN in H | intros H; tauto].
Qed.

(** ** One table, row by row *)

Section Table.

Variables (qs : list Q) (rsiPeriod lookback smoothLength : Z) (c : columns).
Hypothesis Hc : indicators (Fin <$> qs) rsiPeriod lookback smoothLength = Ok c.

#[local] Abbreviation l := (Z.to_nat lookback).
#[local] Abbreviation s := (Z.to_nat smoothLength).

Lemma table_assigned :
  assigned (Fin <$> qs) rsiPeriod lookback smoothLength c.
Proof. now apply indicators_Ok in Hc. Qed.

Lemma table_aligned : aligned c (length qs).
Proof.
  destruct table_assigned
    as (E1 & E2 & E3 & E4 & E5 & E6 & E7 & E8 & E9 & E10 & E11 & E12).
  apply length_rsi_series in E2. rewrite length_fmap in E2.
  assert (length (cClose c) = length qs) as H1 by now rewrite E1, length_fmap.
  assert (length (cRSI_diff c) = length qs) as H3 by now rewrite E3, length_fmap.
  assert (length (cBase_Support c) = length qs) as H4
    by now rewrite E4, length_roll, length_fmap.
  assert (length (cBase_Resistance c) = length qs) as H5
    by now rewrite E5, length_roll, length_fmap.
  assert (length (cRange c) = length qs) as H6
    by (rewrite E6, length_zip_with; lia).
  assert (length (cAdj_Support c) = length qs) as H7
    by (rewrite E7, !length_zip_with; lia).
  assert (length (cAdj_Resistance c) = length qs) as H8
    by (rewrite E8, !length_zip_with; lia).
  assert (length (cMidline c) = length qs) as H9
    by (rewrite E9, length_fmap, length_zip_with; lia).
  unfold aligned. repeat constructor; try assumption.
  - now rewrite E10, length_roll.
  - now rewrite E11, length_roll.
  - now rewrite E12, length_roll.
Qed.

(** The lengths, ready for rewriting. *)
Lemma table_lengths :
  length (cClose c) = length qs /\ length (cRSI c) = length qs /\
  length (cRSI_diff c) = length qs /\ length (cBase_Support c) = length qs /\
  length (cBase_Resistance c) = length qs /\ length (cRange c) = length qs /\
  length (cAdj_Support c) = length qs /\
  length (cAdj_Resistance c) = length qs /\ length (cMidline c) = length qs /\
  length (cSmooth_Support c) = length qs /\
  length (cSmooth_Resistance c) = length qs /\
  length (cSmooth_Midline c) = length qs.
Proof.
  pose proof table_aligned as H. unfold aligned in H.
  repeat (apply Forall_cons in H as [? H]). repeat split; assumption.
Qed.

Lemma rows_lookup i r :
  rows c !! i = Some r <-> i < length qs /\ r = row_at c i.
Proof.
  destruct table_lengths as (H1 & _). unfold rows.
  rewrite list_lookup_fmap, H1. split.
  - intros H. destruct (seq 0 (length qs) !! i) as [j|] eqn:E; [|discriminate].
    apply lookup_seq in E as [-> E]. simpl in H. split; [exact E | congruence].
  - intros [Hi ->].
    rewrite (proj2 (lookup_seq 0 (length qs) i i)); [reflexivity | now split].
Qed.

Lemma length_rows : length (rows c) = length qs.
Proof.
  destruct table_lengths as (H1 & _). unfold rows.
  now rewrite length_fmap, length_seq.
Qed.

Lemma at_Close i q : qs !! i = Some q -> at_ (cClose c) i = Fin q.
Proof.
  intros H. destruct table_assigned as (-> & _).
  apply at_lookup. now rewrite list_lookup_fmap, H.
Qed.

Lemma at_RSI_range i :
  i < length qs ->
  at_ (cRSI c) i = NaN \/ fin_in (fun q => 0 <= q <= 100)%Q (at_ (cRSI c) i).
Proof.
  intros Hi. destruct table_assigned as (_ & E & _).
  destruct table_lengths as (_ & H2 & _).
  eapply rsi_series_range; [exact E|]. apply lookup_at. now rewrite H2.
Qed.

(** The base levels: NaN before a full lookback window, then the smallest
    and the largest close of the window. *)
Lemma base_at i :
  i < length qs ->
  (1 <= l <= S i /\ exists m M,
     at_ (cBase_Support c) i = Fin m /\ at_ (cBase_Resistance c) i = Fin M /\
     (m <= M)%Q) \/
  (~ 1 <= l <= S i /\
     at_ (cBase_Support c) i = NaN /\ at_ (cBase_Resistance c) i = NaN).
Proof.
  intros Hi.
  destruct table_assigned as (_ & _ & _ & E4 & E5 & _). rewrite E4, E5.
  assert (i < length (Fin <$> qs)) as Hi' by now rewrite length_fmap.
  rewrite !at_roll by assumption.
  assert (Forall defined (window l i (Fin <$> qs))) as Hall.
  { apply Forall_window, Forall_fmap, Forall_true. intros q. apply defined_Fin. }
  destruct (decide (1 <= l <= S i)) as [Hl|Hl].
  - left. split; [exact Hl|].
    rewrite !roll_at_strict by assumption. rewrite window_fmap.
    pose proof (length_window l i qs Hi) as Hlen.
    destruct (window l i qs) as [|q w]; [simpl in Hlen; lia|].
    destruct (smallest_Fin q w) as (m & -> & Hm).
    destruct (largest_Fin q w) as (M & -> & HM).
    exists m, M. repeat split. lra.
  - right. split; [exact Hl|].
    rewrite !roll_at_strict_NaN by (assumption || tauto). now split.
Qed.

(** The adjusted channel of a row: three rationals around the base levels
    when the oscillator and the base levels exist, three NaN otherwise. *)
Lemma adjusted_at i :
  i < length qs ->
  (defined (at_ (cRSI c) i) /\ 1 <= l <= S i /\
   exists a m mid M b,
     at_ (cAdj_Support c) i = Fin a /\ at_ (cBase_Support c) i = Fin m /\
     at_ (cMidline c) i = Fin mid /\ at_ (cBase_Resistance c) i = Fin M /\
     at_ (cAdj_Resistance c) i = Fin b /\
     (a <= m)%Q /\ (m <= M)%Q /\ (M <= b)%Q /\ (a <= mid <= b)%Q) \/
  (~ (defined (at_ (cRSI c) i) /\ 1 <= l <= S i) /\
   at_ (cAdj_Support c) i = NaN /\ at_ (cMidline c) i = NaN /\
   at_ (cAdj_Resistance c) i = NaN).
Proof.
  intros Hi.
  destruct table_lengths
    as (H1 & H2 & H3 & H4 & H5 & H6 & H7 & H8 & H9 & _).
  destruct table_assigned
    as (_ & _ & E3 & _ & _ & E6 & E7 & E8 & E9 & _).
  assert (at_ (cRSI_diff c) i =
          fdiv (fabs (fsub (at_ (cRSI c) i) 50%Z)) 50%Z) as Ed.
  { rewrite E3 at 1. rewrite at_fmap by lia. reflexivity. }
  assert (at_ (cRange c) i =
          fsub (at_ (cBase_Resistance c) i) (at_ (cBase_Support c) i)) as Er.
  { rewrite E6 at 1. rewrite at_zip_with by lia. reflexivity. }
  assert (at_ (cAdj_Support c) i =
          fsub (at_ (cBase_Support c) i)
               (fmul (at_ (cRSI_diff c) i) (at_ (cRange c) i))) as Ea.
  { rewrite E7 at 1. rewrite !at_zip_with by (rewrite ?length_zip_with; lia).
    reflexivity. }
  assert (at_ (cAdj_Resistance c) i =
          fadd (at_ (cBase_Resistance c) i)
               (fmul (at_ (cRSI_diff c) i) (at_ (cRange c) i))) as Eb.
  { rewrite E8 at 1. rewrite !at_zip_with by (rewrite ?length_zip_with; lia).
    reflexivity. }
  assert (at_ (cMidline c) i =
          fdiv (fadd (at_ (cAdj_Support c) i) (at_ (cAdj_Resistance c) i)) 2%Z)
    as Em.
  { rewrite E9 at 1. rewrite at_fmap by (rewrite length_zip_with; lia).
    rewrite at_zip_with by lia. reflexivity. }
  rewrite Em, Ea, Eb, Ed, Er.
  destruct (at_RSI_range i Hi) as [Hrsi|Hrsi].
  - right. rewrite Hrsi. split; [intros [H _]; now apply not_defined_NaN in H|].
    destruct (adjusted_NaN NaN (at_ (cBase_Support c) i)
                (at_ (cBase_Resistance c) i)) as (-> & -> & ->); auto.
  - destruct (base_at i Hi) as [(Hl & m & M & -> & -> & HmM)|(Hl & -> & ->)].
    + left. apply fin_in_inv in Hrsi as (r & -> & Hr).
      split; [apply defined_Fin|]. split; [exact Hl|].
      destruct (adjusted_Fin r m M Hr HmM) as (a & b & mid & -> & -> & -> & H).
      exists a, m, mid, M, b. repeat split; tauto.
    + right. split; [tauto|].
      destruct (adjusted_NaN (at_ (cRSI c) i) NaN NaN) as (-> & -> & ->); auto.
Qed.

Lemma adjusted_defined i :
  i < length qs ->
  defined (at_ (cAdj_Support c) i) <->
  defined (at_ (cRSI c) i) /\ 1 <= l <= S i.
Proof.
  intros Hi.
  destruct (adjusted_at i Hi) as [(H1 & H2 & a & _ & _ & _ & _ & -> & _)
                                 |(H & -> & _)].
  - split; [now intros _ | intros _; apply defined_Fin].
  - split; [intros H'; now apply not_defined_NaN in H' | tauto].
Qed.

Lemma adjusted_ordered :
  Forall2 ordered (cAdj_Support c) (cMidline c) /\
  Forall2 ordered (cMidline c) (cAdj_Resistance c).
Proof.
  destruct table_lengths as (_ & _ & _ & _ & _ & _ & H7 & H8 & H9 & _).
  split; (apply Forall2_same_length_lookup_2; [lia|]); intros i x y Hx Hy;
    pose proof (lookup_lt_Some _ _ _ Hx) as Hi;
    apply at_lookup in Hx; apply at_lookup in Hy; subst x y;
    (destruct (adjusted_at i ltac:(lia))
      as [(_ & _ & a & m & mid & M & b & Ea & _ & Em & _ & Eb & Hle)
         |(_ & Ea & Em & Eb)]; rewrite ?Ea, ?Em, ?Eb; [right | now left]).
  - exists a, mid. repeat split; tauto.
  - exists mid, b. repeat split; tauto.
Qed.

Lemma adjusted_shape :
  Forall (fun x => x = NaN \/ finite x) (cAdj_Support c).
Proof.
  destruct table_lengths as (_ & _ & _ & _ & _ & _ & H7 & _).
  apply Forall_lookup. intros i x Hx.
  pose proof (lookup_lt_Some _ _ _ Hx) as Hi. apply at_lookup in Hx. subst x.
  destruct (adjusted_at i ltac:(lia))
    as [(_ & _ & a & _ & _ & _ & _ & -> & _)|(_ & -> & _)];
    [right; exact I | now left].
Qed.

(** The smoothed channel of a row. *)
Lemma smoothed_at i :
  i < length qs ->
  ordered (at_ (cSmooth_Support c) i) (at_ (cSmooth_Midline c) i) /\
  ordered (at_ (cSmooth_Midline c) i) (at_ (cSmooth_Resistance c) i) /\
  (defined (at_ (cSmooth_Support c) i) <->
   1 <= l /\ 1 <= s /\ l + s <= i + 2 /\
   forall j, S i - s <= j <= i -> defined (at_ (cRSI c) j)).
Proof.
  intros Hi.
  destruct table_lengths as (_ & _ & _ & _ & _ & _ & H7 & H8 & H9 & _).
  destruct table_assigned
    as (_ & _ & _ & _ & _ & _ & _ & _ & _ & E10 & E11 & E12).
  destruct adjusted_ordered as [Hsm Hmr].
  rewrite E10, E11, E12, !at_roll by lia.
  split; [apply ordered_roll_mean; [exact Hsm | lia]|].
  split; [apply ordered_roll_mean; [exact Hmr | lia]|].
  rewrite (roll_mean_defined s _ i adjusted_shape) by lia.
  rewrite Forall_window_iff by lia.
  split.
  - intros [Hs Hall].
    assert (forall j, S i - s <= j <= i ->
              defined (at_ (cRSI c) j) /\ 1 <= l <= S j) as Hj.
    { intros j Hj. apply adjusted_defined; [lia|].
      apply (Hall j _ Hj). apply lookup_at. lia. }
    pose proof (Hj (S i - s) ltac:(lia)) as [_ Hl].
    repeat split; try lia. intros j Hj'. now apply Hj.
  - intros (Hl & Hs & Hls & Hall). split; [lia|].
    intros j x Hj Hx. apply at_lookup in Hx. subst x.
    apply adjusted_defined; [lia|]. split; [now apply Hall | lia].
Qed.

(** A row survives [dropna] exactly when its smoothed support exists. *)
Lemma complete_row i :
  i < length qs ->
  complete (row_at c i) = true <->
  1 <= l /\ 1 <= s /\ l + s <= i + 2 /\
  forall j, S i - s <= j <= i -> defined (at_ (cRSI c) j).
Proof.
  intros Hi. destruct (smoothed_at i Hi) as (Hsm & Hmr & Hdef).
  rewrite <- Hdef. unfold complete; simpl.
  rewrite !andb_true_iff.
  pose proof (ordered_defined _ _ Hsm) as H1.
  pose proof (ordered_defined _ _ Hmr) as H2.
  fold (defined (at_ (cSmooth_Support c) i)).
  fold (defined (at_ (cSmooth_Resistance c) i)).
  fold (defined (at_ (cSmooth_Midline c) i)).
  fold (defined (at_ (cRSI c) i)).
  split; [tauto|]. intros H. repeat split; try tauto.
  apply Hdef in H as (_ & Hs & _ & H). apply H. lia.
Qed.

End Table.

(** ** The valid rows *)

Lemma filter_fmap {A B} (f : A -> B) (P : B -> Prop)
  `{!forall y, Decision (P y)} (xs : list A) :
  filter P (f <$> xs) = f <$> filter (fun x => P (f x)) xs.
Proof.
  induction xs as [|x xs IH]; [reflexivity|].
  rewrite fmap_cons, !filter_cons, IH.
  destruct (decide (P (f x))); reflexivity.
Qed.

Lemma dropna_rows c :
  dropna (rows c) =
  row_at c <$> filter (fun i => complete (row_at c i) = true)
                 (seq 0 (length (cClose c))).
Proof. unfold dropna, rows. apply filter_fmap. Qed.

(** The valid region lists, in increasing order, the positions whose row
    is complete. *)
Lemma valid_positions_eq c :
  valid_positions c =
  filter (fun i => complete (row_at c i) = true) (seq 0 (length (cClose c))).
Proof.
  unfold valid_positions. rewrite dropna_rows, <- list_fmap_compose.
  apply list_fmap_id.
Qed.

Lemma valid_rows_eq c : dropna (rows c) = row_at c <$> valid_positions c.
Proof. now rewrite valid_positions_eq, dropna_rows. Qed.

Lemma elem_of_valid_positions c i :
  i ∈ valid_positions c <->
  i < length (cClose c) /\ complete (row_at c i) = true.
Proof.
  rewrite valid_positions_eq, list_elem_of_filter, elem_of_seq. intuition lia.
Qed.

Lemma valid_positions_sublist c :
  valid_positions c `sublist_of` seq 0 (length (cClose c)).
Proof. rewrite valid_positions_eq. apply sublist_filter. Qed.

(** ** The signal columns *)

Lemma length_Buy_Signal v : length (Buy_Signal v) = length v.
Proof.
  unfold Buy_Signal.
  rewrite !length_zip_with, !length_shift, !length_fmap. lia.
Qed.

Lemma length_Sell_Signal v : length (Sell_Signal v) = length v.
Proof.
  unfold Sell_Signal.
  rewrite !length_zip_with, !length_shift, !length_fmap. lia.
Qed.

Lemma lookup_shift_fmap_0 (f : row -> float64) v r :
  v !! 0 = Some r -> shift (f <$> v) !! 0 = Some NaN.
Proof. intros H. apply lookup_shift_0. now destruct v. Qed.

Lemma lookup_shift_fmap_S (f : row -> float64) v i r p :
  v !! S i = Some r -> v !! i = Some p -> shift (f <$> v) !! S i = Some (f p).
Proof.
  intros Hr Hp. rewrite lookup_shift_S.
  - now rewrite list_lookup_fmap, Hp.
  - rewrite length_fmap. now apply lookup_lt_Some in Hr.
Qed.

(** The first valid row has no previous row: both flags are off. *)
Lemma Buy_Signal_first v r : v !! 0 = Some r -> Buy_Signal v !! 0 = Some false.
Proof.
  intros H. unfold Buy_Signal.
  rewrite !lookup_zip_with, !list_lookup_fmap, H.
  rewrite !(lookup_shift_fmap_0 _ _ _ H). simpl.
  unfold fgtb. simpl. destruct (RSI r); simpl; now rewrite andb_false_r.
Qed.

Lemma Sell_Signal_first v r : v !! 0 = Some r -> Sell_Signal v !! 0 = Some false.
Proof.
  intros H. unfold Sell_Signal.
  rewrite !lookup_zip_with, !list_lookup_fmap, H.
  rewrite !(lookup_shift_fmap_0 _ _ _ H). simpl.
  destruct (RSI r); simpl; now rewrite andb_false_r.
Qed.

(** Any later valid row is compared with the valid row before it. *)
Lemma Buy_Signal_next v i r p :
  v !! S i = Some r -> v !! i = Some p ->
  Buy_Signal v !! S i =
  Some (fgtb (Close r) (Smooth_Support r)
        && fleb (Close p) (Smooth_Support p)
        && fgtb (RSI r) (RSI p)).
Proof.
  intros Hr Hp. unfold Buy_Signal.
  rewrite !lookup_zip_with, !list_lookup_fmap, Hr.
  rewrite !(lookup_shift_fmap_S _ _ _ _ _ Hr Hp). reflexivity.
Qed.

Lemma Sell_Signal_next v i r p :
  v !! S i = Some r -> v !! i = Some p ->
  Sell_Signal v !! S i =
  Some (fltb (Close r) (Smooth_Resistance r)
        && fgeb (Close p) (Smooth_Resistance p)
        && fltb (RSI r) (RSI p)).
Proof.
  intros Hr Hp. unfold Sell_Signal.
  rewrite !lookup_zip_with, !list_lookup_fmap, Hr.
  rewrite !(lookup_shift_fmap_S _ _ _ _ _ Hr Hp). reflexivity.
Qed.

(** ** Runs of the pipeline *)

Lemma pipeline_Completed qs P L S rep :
  pipeline qs P L S = Completed rep ->
  exists c, indicators (Fin <$> qs) P L S = Ok c /\
    valid_rows rep = dropna (rows c) /\
    buy rep = Buy_Signal (dropna (rows c)) /\
    sell rep = Sell_Signal (dropna (rows c)) /\
    last (dropna (rows c)) = Some (latest rep) /\
    last (buy rep) = Some (latest_buy rep) /\
    last (sell rep) = Some (latest_sell rep) /\
    recommendation rep = advise (latest_buy rep) (latest_sell rep).
Proof.
  unfold pipeline.
  destruct (indicators (Fin <$> qs) P L S) as [c|e]; [|discriminate].
  destruct (last (dropna (rows c))) as [r|] eqn:E; [|discriminate].
  intros [= <-]. exists c. simpl. repeat split; try assumption.
  - assert (is_Some (last (Buy_Signal (dropna (rows c))))) as [b Hb].
    { apply last_is_Some. intros H. apply (f_equal length) in H.
      rewrite length_Buy_Signal in H. destruct (dropna (rows c)); discriminate. }
    now rewrite Hb.
  - assert (is_Some (last (Sell_Signal (dropna (rows c))))) as [b Hb].
    { apply last_is_Some. intros H. apply (f_equal length) in H.
      rewrite length_Sell_Signal in H. destruct (dropna (rows c)); discriminate. }
    now rewrite Hb.
Qed.

Lemma pipeline_Stopped qs P L S :
  pipeline qs P L S = Stopped <->
  exists c, indicators (Fin <$> qs) P L S = Ok c /\ dropna (rows c) = [].
Proof.
  unfold pipeline. split.
  - destruct (indicators (Fin <$> qs) P L S) as [c|e]; [|discriminate].
    destruct (last (dropna (rows c))) as [r|] eqn:E; [discriminate|].
    intros _. exists c. split; [reflexivity | now apply last_None].
  - intros (c & -> & ->). reflexivity.
Qed.

Lemma pipeline_Raised qs P L S e :
  pipeline qs P L S = Raised e <-> (P < 1)%Z \/ (L < 0)%Z \/ (S < 0)%Z.
Proof.
  rewrite <- (indicators_Raise (Fin <$> qs) P L S e). unfold pipeline.
  destruct (indicators (Fin <$> qs) P L S) as [c|e'].
  - destruct (last (dropna (rows c))); split; discriminate.
  - split; intros [= ->]; reflexivity.
Qed.

(** ** A flat series *)

Lemma average_zero w s i :
  1 <= w -> i < length s -> Forall (fin_in nonneg) s ->
  Forall (fun x => feq x 0%Z) (window w i s) ->
  exists a, roll_at w 1 mean s i = Fin a /\ a == 0.
Proof.
  intros Hw Hi Hs Hz.
  rewrite roll_at_expanding; [|assumption..|].
  2:{ eapply Forall_impl; [exact Hs|]. intros x. apply fin_in_defined. }
  pose proof (length_window w i s Hi) as Hlen.
  destruct (Forall_nonneg_fmap _ (Forall_window _ w i _ Hs)) as (qs & Hqs & Hnn).
  rewrite Hqs in *. rewrite length_fmap in Hlen.
  assert (qs <> []) as Hne by (intros ->; simpl in Hlen; lia).
  rewrite (mean_Fin _ Hne). eexists. split; [reflexivity|].
  apply Forall_fmap in Hz.
  assert (Qsum qs == 0) as H0.
  { clear -Hz. induction Hz as [|q qs Hq _ IH]; [reflexivity|].
    unfold Qsum in *; simpl in *. unfold inject_Z in Hq. lra. }
  rewrite H0. unfold Qdiv. apply Qmult_0_l.
Qed.

Lemma diff_flat c n :
  Forall (fun d => d = NaN \/ fin_in (fun q => q == 0) d)
    (diff (Fin <$> replicate n c)).
Proof.
  rewrite fmap_replicate. unfold diff.
  assert (Forall (eq (Fin c)) (replicate n (Fin c))) as Hs
    by exact (proj2 (proj1 (replicate_as_Forall (Fin c) n _) eq_refl)).
  apply Forall_zip_with_fst with (P := eq (Fin c)); [exact Hs|].
  unfold shift. apply Forall_take. constructor.
  - intros x <-. now left.
  - eapply Forall_impl; [exact Hs|]. intros y <- x <-.
    right. simpl. lra.
Qed.

Lemma gain_flat c n :
  Forall (fun x => feq x 0%Z) (gain (Fin <$> replicate n c)).
Proof.
  rewrite gain_eq. apply Forall_fmap.
  eapply Forall_impl; [apply diff_flat|].
  intros d [->|Hd]; simpl; [reflexivity|].
  destruct d as [| |q]; simpl in Hd; try tauto.
  unfold fgtb; simpl.
  destruct (QMicromega.Qlt_bool (inject_Z 0) q) eqn:E; simpl; [|reflexivity].
  apply QMicromega.Qlt_bool_iff in E. unfold inject_Z in *. lra.
Qed.

Lemma loss_flat c n :
  Forall (fun x => feq x 0%Z) (loss (Fin <$> replicate n c)).
Proof.
  rewrite loss_eq. apply Forall_fmap.
  eapply Forall_impl; [apply diff_flat|].
  intros d [->|Hd]; simpl; [reflexivity|].
  destruct d as [| |q]; simpl in Hd; try tauto.
  simpl.
  destruct (QMicromega.Qlt_bool q (inject_Z 0)) eqn:E; simpl; [|reflexivity].
  apply QMicromega.Qlt_bool_iff in E. unfold inject_Z in *. lra.
Qed.

(** Equal closes give no gain and no loss: the ratio is 0/0 at every
    position and the oscillator is NaN throughout. *)
Lemma rsi_series_flat c n P :
  (1 <= P)%Z -> rsi_series (Fin <$> replicate n c) P = Ok (replicate n NaN).
Proof.
  intros HP.
  destruct (rsi_series (Fin <$> replicate n c) P) as [rsi|e] eqn:E.
  2:{ apply rsi_series_Raise in E. lia. }
  f_equal. symmetry. apply replicate_as_Forall.
  pose proof (length_rsi_series _ _ _ E) as Hlen.
  rewrite length_fmap, length_replicate in Hlen. split; [exact Hlen|].
  apply Forall_lookup. intros i x Hx.
  assert (i < length (replicate n c)) as Hi.
  { apply lookup_lt_Some in Hx. rewrite length_replicate. lia. }
  destruct (rsi_series_at _ _ _ _ E Hi) as (g & l & Eg & El & Hg & Hl & Ex).
  assert (i < length (gain (Fin <$> replicate n c))) as Hig
    by now rewrite length_gain, length_fmap.
  assert (i < length (loss (Fin <$> replicate n c))) as Hil
    by now rewrite length_loss, length_fmap.
  destruct (average_zero (Z.to_nat P) _ i ltac:(lia) Hig (gain_nonneg _)
              (Forall_window _ _ _ _ (gain_flat c n))) as (g' & Eg' & Hg').
  destruct (average_zero (Z.to_nat P) _ i ltac:(lia) Hil (loss_nonneg _)
              (Forall_window _ _ _ _ (loss_flat c n))) as (l' & El' & Hl').
  assert (g' = g) as -> by congruence. assert (l' = l) as -> by congruence.
  rewrite Ex in Hx.
  destruct (rsi_of_cases g l Hg Hl) as [(_ & _ & Er)|[(_ & H & _)|(H & _)]];
    [congruence | lra | lra].
Qed.

(** The values of a valid row are rationals. *)
Lemma valid_row_values qs period lookback smooth c r :
  indicators (Fin <$> qs) period lookback smooth = Ok c ->
  r ∈ dropna (rows c) ->
  exists cl rsi ss sm sr,
    Close r = Fin cl /\ RSI r = Fin rsi /\ Smooth_Support r = Fin ss /\
    Smooth_Midline r = Fin sm /\ Smooth_Resistance r = Fin sr /\
    (0 <= rsi <= 100)%Q /\ (ss <= sm)%Q /\ (sm <= sr)%Q.
Proof.
  intros Hc Hr. apply list_elem_of_filter in Hr as [Hcomp Hr].
  apply list_elem_of_lookup in Hr as [i Hi].
  apply (rows_lookup _ _ _ _ _ Hc) in Hi as [Hi ->].
  unfold complete in Hcomp. simpl in *.
  rewrite !andb_true_iff in Hcomp. destruct Hcomp as [[[Hss Hsr] Hsm] Hrsi].
  destruct (smoothed_at _ _ _ _ _ Hc i Hi) as (H1 & H2 & _).
  destruct (at_RSI_range _ _ _ _ _ Hc i Hi) as [E|Hrange].
  { rewrite E in Hrsi. discriminate. }
  apply fin_in_inv in Hrange as (rsi & Ersi & Hrange).
  destruct (lookup_lt_is_Some_2 qs i Hi) as [cl Hcl].
  pose proof (at_Close _ _ _ _ _ Hc i cl Hcl) as Ecl.
  destruct H1 as [[E _]|(ss & sm & Ess & Esm & Hle1)].
  { rewrite E in Hss. discriminate. }
  destruct H2 as [[E _]|(sm' & sr & Esm' & Esr & Hle2)].
  { rewrite E in Hsm. discriminate. }
  assert (sm' = sm) as -> by congruence.
  exists cl, rsi, ss, sm, sr. repeat split; try assumption; tauto.
Qed.

(** * The claims *)

(** C1.  At every position of the valid region but the first, both flags
    exist and follow the crossing rules, read on the valid row [r] at that
    position and on the valid row [p] just before it in the valid region:
    the buy flag holds iff close > smoothed support, previous close <=
    previous smoothed support and oscillator > previous oscillator; the
    sell flag holds iff close < smoothed resistance, previous close >=
    previous smoothed resistance and oscillator < previous oscillator.  All
    the values compared are rationals. *)
Theorem signal_rules qs period lookback smooth rep i r p :
  pipeline qs period lookback smooth = Completed rep ->
  valid_rows rep !! S i = Some r ->
  valid_rows rep !! i = Some p ->
  exists close support resistance rsi close' support' resistance' rsi' b s,
    Close r = Fin close /\ Smooth_Support r = Fin support /\
    Smooth_Resistance r = Fin resistance /\ RSI r = Fin rsi /\
    Close p = Fin close' /\ Smooth_Support p = Fin support' /\
    Smooth_Resistance p = Fin resistance' /\ RSI p = Fin rsi' /\
    buy rep !! S i = Some b /\ sell rep !! S i = Some s /\
    (b = true <->
       (support < close)%Q /\ (close' <= support')%Q /\ (rsi' < rsi)%Q) /\
    (s = true <->
       (close < resistance)%Q /\ (resistance' <= close')%Q /\ (rsi < rsi')%Q).
Proof.
  intros Hrun Hr Hp.
  destruct (pipeline_Completed _ _ _ _ _ Hrun)
    as (c & Hc & Ev & Eb & Es & _).
  rewrite Ev in Hr, Hp.
  destruct (valid_row_values _ _ _ _ c r Hc)
    as (cl & rsi & ss & sm & sr & E1 & E2 & E3 & _ & E5 & _).
  { apply list_elem_of_lookup. eauto. }
  destruct (valid_row_values _ _ _ _ c p Hc)
    as (cl' & rsi' & ss' & sm' & sr' & F1 & F2 & F3 & _ & F5 & _).
  { apply list_elem_of_lookup. eauto. }
  exists cl, ss, sr, rsi, cl', ss', sr', rsi'.
  do 2 eexists. repeat (split; [eassumption|]).
  rewrite Eb, Es, (Buy_Signal_next _ _ _ _ Hr Hp),
    (Sell_Signal_next _ _ _ _ Hr Hp).
  split; [reflexivity|]. split; [reflexivity|].
  rewrite E1, E2, E3, E5, F1, F2, F3, F5. unfold fgtb, fgeb; simpl.
  rewrite !andb_true_iff, !QMicromega.Qlt_bool_iff, !Qle_bool_iff.
  tauto.
Qed.

(** The rule above on the sample run: the fourth valid row (bar 6) closes
    above its smoothed support after a close at the support. *)
Lemma signal_rules_witness :
  exists close support resistance rsi close' support' resistance' rsi' b s,
    Close (row_at sample_table 6) = Fin close /\
    Smooth_Support (row_at sample_table 6) = Fin support /\
    Smooth_Resistance (row_at sample_table 6) = Fin resistance /\
    RSI (row_at sample_table 6) = Fin rsi /\
    Close (row_at sample_table 5) = Fin close' /\
    Smooth_Support (row_at sample_table 5) = Fin support' /\
    Smooth_Resistance (row_at sample_table 5) = Fin resistance' /\
    RSI (row_at sample_table 5) = Fin rsi' /\
    buy sample_report !! 3 = Some b /\ sell sample_report !! 3 = Some s /\
    (b = true <->
       (support < close)%Q /\ (close' <= support')%Q /\ (rsi' < rsi)%Q) /\
    (s = true <->
       (close < resistance)%Q /\ (resistance' <= close')%Q /\ (rsi < rsi')%Q).
Proof.
  apply (signal_rules falling_then_rising 2 2 3 sample_report 2);
    vm_compute; reflexivity.
Defined.

(** C8.  The first position of the valid region carries neither a buy nor
    a sell signal. *)
Theorem first_valid_row_has_no_signal qs period lookback smooth rep :
  pipeline qs period lookback smooth = Completed rep ->
  buy rep !! 0 = Some false /\ sell rep !! 0 = Some false.
Proof.
  intros Hrun.
  destruct (pipeline_Completed _ _ _ _ _ Hrun)
    as (c & _ & _ & -> & -> & Hlast & _).
  assert (is_Some (dropna (rows c) !! 0)) as [r Hr].
  { apply lookup_lt_is_Some. destruct (dropna (rows c)); [discriminate|].
    simpl. lia. }
  split; [eapply Buy_Signal_first | eapply Sell_Signal_first]; exact Hr.
Qed.

Lemma first_valid_row_has_no_signal_witness :
  buy sample_report !! 0 = Some false /\ sell sample_report !! 0 = Some false.
Proof.
  apply (first_valid_row_has_no_signal falling_then_rising 2 2 3).
  vm_compute. reflexivity.
Defined.

(** C3.  For every series of closes and every period of at least 2 the
    oscillator is computed, has one value per bar, and each of its values
    that is not NaN is a rational between 0 and 100, bounds included. *)
Theorem oscillator_range qs period :
  (2 <= period)%Z ->
  exists rsi,
    rsi_series (Fin <$> qs) period = Ok rsi /\
    length rsi = length qs /\
    forall i x, rsi !! i = Some x -> defined x ->
      fin_in (fun q => 0 <= q <= 100)%Q x.
Proof.
  intros HP.
  destruct (rsi_series (Fin <$> qs) period) as [rsi|e] eqn:E.
  2:{ apply rsi_series_Raise in E. lia. }
  exists rsi. split; [reflexivity|]. split.
  - rewrite (length_rsi_series _ _ _ E). apply length_fmap.
  - intros i x Hx Hd.
    destruct (rsi_series_range _ _ _ _ _ E Hx) as [->|H]; [|exact H].
    now apply not_defined_NaN in Hd.
Qed.

Lemma oscillator_range_witness :
  exists rsi,
    rsi_series (Fin <$> falling_then_rising) 2 = Ok rsi /\
    length rsi = length falling_then_rising /\
    forall i x, rsi !! i = Some x -> defined x ->
      fin_in (fun q => 0 <= q <= 100)%Q x.
Proof. apply (oscillator_range falling_then_rising 2). lia. Defined.

(** C5.  On every row of the table where adjusted support, midline and
    adjusted resistance are all defined, support <= midline <= resistance;
    the same holds for the smoothed support, midline and resistance. *)
Theorem channel_ordering qs period lookback smooth c i r :
  indicators (Fin <$> qs) period lookback smooth = Ok c ->
  rows c !! i = Some r ->
  (defined (Adj_Support r) -> defined (Midline r) ->
   defined (Adj_Resistance r) ->
   fle (Adj_Support r) (Midline r) /\ fle (Midline r) (Adj_Resistance r)) /\
  (defined (Smooth_Support r) -> defined (Smooth_Midline r) ->
   defined (Smooth_Resistance r) ->
   fle (Smooth_Support r) (Smooth_Midline r) /\
   fle (Smooth_Midline r) (Smooth_Resistance r)).
Proof.
  intros Hc Hr. apply (rows_lookup _ _ _ _ _ Hc) in Hr as [Hi ->]. simpl.
  split.
  - intros Ha Hm Hb.
    destruct (adjusted_at _ _ _ _ _ Hc i Hi)
      as [(_ & _ & a & m & mid & M & b & Ea & _ & Em & _ & Eb & H)
         |(_ & Ea & _)].
    + rewrite Ea, Em, Eb. rewrite !fle_Fin. tauto.
    + rewrite Ea in Ha. now apply not_defined_NaN in Ha.
  - intros Hs Hm Hb.
    destruct (smoothed_at _ _ _ _ _ Hc i Hi) as (H1 & H2 & _).
    destruct H1 as [[E _]|(ss & sm & Ess & Esm & Hle1)].
    { rewrite E in Hs. now apply not_defined_NaN in Hs. }
    destruct H2 as [[E _]|(sm' & sr & Esm' & Esr & Hle2)].
    { rewrite E in Hm. now apply not_defined_NaN in Hm. }
    rewrite Ess, Esr, Esm'. rewrite !fle_Fin. split; [|exact Hle2].
    assert (sm' = sm) as -> by congruence. exact Hle1.
Qed.

Lemma channel_ordering_witness :
  (defined (Adj_Support (row_at sample_table 6)) ->
   defined (Midline (row_at sample_table 6)) ->
   defined (Adj_Resistance (row_at sample_table 6)) ->
   fle (Adj_Support (row_at sample_table 6)) (Midline (row_at sample_table 6)) /\
   fle (Midline (row_at sample_table 6))
       (Adj_Resistance (row_at sample_table 6))) /\
  (defined (Smooth_Support (row_at sample_table 6)) ->
   defined (Smooth_Midline (row_at sample_table 6)) ->
   defined (Smooth_Resistance (row_at sample_table 6)) ->
   fle (Smooth_Support (row_at sample_table 6))
       (Smooth_Midline (row_at sample_table 6)) /\
   fle (Smooth_Midline (row_at sample_table 6))
       (Smooth_Resistance (row_at sample_table 6))).
Proof.
  apply (channel_ordering falling_then_rising 2 2 3 sample_table 6);
    vm_compute; reflexivity.
Defined.

(** C10.  On every row where base support, base resistance and the
    oscillator deviation are all defined, the adjusted channel contains the
    base channel: adjusted support <= base support <= base resistance <=
    adjusted resistance. *)
Theorem adjusted_channel_contains_base qs period lookback smooth c i r :
  indicators (Fin <$> qs) period lookback smooth = Ok c ->
  rows c !! i = Some r ->
  defined (Base_Support r) -> defined (Base_Resistance r) ->
  defined (RSI_diff r) ->
  fle (Adj_Support r) (Base_Support r) /\
  fle (Base_Support r) (Base_Resistance r) /\
  fle (Base_Resistance r) (Adj_Resistance r).
Proof.
  intros Hc Hr. apply (rows_lookup _ _ _ _ _ Hc) in Hr as [Hi ->]. simpl.
  intros Hbs Hbr Hd.
  destruct (adjusted_at _ _ _ _ _ Hc i Hi)
    as [(_ & _ & a & m & mid & M & b & Ea & Em & _ & EM & Eb & H)
       |(Hn & _)].
  - rewrite Ea, Em, EM, Eb. rewrite !fle_Fin. tauto.
  - exfalso. apply Hn. split.
    + destruct (table_assigned _ _ _ _ _ Hc) as (_ & _ & E3 & _).
      destruct (table_lengths _ _ _ _ _ Hc) as (_ & H2 & _).
      rewrite E3, at_fmap in Hd by lia.
      destruct (at_ (cRSI c) i); [now apply not_defined_NaN in Hd|..];
        reflexivity.
    + destruct (base_at _ _ _ _ _ Hc i Hi) as [(Hl & _)|(_ & E & _)];
        [exact Hl|].
      rewrite E in Hbs. now apply not_defined_NaN in Hbs.
Qed.

Lemma adjusted_channel_contains_base_witness :
  fle (Adj_Support (row_at sample_table 7))
      (Base_Support (row_at sample_table 7)) /\
  fle (Base_Support (row_at sample_table 7))
      (Base_Resistance (row_at sample_table 7)) /\
  fle (Base_Resistance (row_at sample_table 7))
      (Adj_Resistance (row_at sample_table 7)).
Proof.
  apply (adjusted_channel_contains_base falling_then_rising 2 2 3
           sample_table 7); vm_compute; reflexivity.
Defined.

(** C4, as the code has it.  With lookback L >= 1 and smoothing length
    S >= 1: base support and base resistance are NaN at positions 0 .. L-2
    and rationals from position L-1 on; the smoothed support, resistance
    and midline are NaN at positions 0 .. L+S-3; from position L+S-2 on
    they are rationals where the oscillator is defined on the whole
    smoothing window (positions i-S+1 .. i) and NaN where it is not. *)
Theorem warm_up_lengths qs period lookback smooth c i r :
  indicators (Fin <$> qs) period lookback smooth = Ok c ->
  (1 <= lookback)%Z -> (1 <= smooth)%Z ->
  rows c !! i = Some r ->
  ((Z.of_nat i < lookback - 1)%Z ->
     Base_Support r = NaN /\ Base_Resistance r = NaN) /\
  ((lookback - 1 <= Z.of_nat i)%Z ->
     finite (Base_Support r) /\ finite (Base_Resistance r)) /\
  ((Z.of_nat i < lookback + smooth - 2)%Z ->
     Smooth_Support r = NaN /\ Smooth_Resistance r = NaN /\
     Smooth_Midline r = NaN) /\
  ((lookback + smooth - 2 <= Z.of_nat i)%Z ->
     (oscillator_defined c (Z.of_nat i - smooth) (Z.of_nat i) ->
        finite (Smooth_Support r) /\ finite (Smooth_Resistance r) /\
        finite (Smooth_Midline r)) /\
     (~ oscillator_defined c (Z.of_nat i - smooth) (Z.of_nat i) ->
        Smooth_Support r = NaN /\ Smooth_Resistance r = NaN /\
        Smooth_Midline r = NaN)).
Proof.
  intros Hc HL HS Hr. apply (rows_lookup _ _ _ _ _ Hc) in Hr as [Hi ->]. simpl.
  destruct (table_lengths _ _ _ _ _ Hc) as (_ & H2 & _).
  assert (forall x y z, ordered x y -> ordered y z ->
            (defined x -> finite x /\ finite z /\ finite y) /\
            (~ defined x -> x = NaN /\ z = NaN /\ y = NaN)) as Htriple.
  { intros x y z [[-> ->]|(p & q & -> & -> & _)] Hyz.
    - destruct Hyz as [[_ ->]|(? & ? & ? & _)]; [|discriminate].
      split; [intros H; now apply not_defined_NaN in H | auto].
    - destruct Hyz as [[? _]|(? & ? & _ & -> & _)]; [discriminate|].
      split; [intros _; repeat split | intros H; destruct H; apply defined_Fin]. }
  destruct (smoothed_at _ _ _ _ _ Hc i Hi) as (H1 & H3 & Hdef).
  destruct (Htriple _ _ _ H1 H3) as [Hyes Hno].
  split; [|split; [|split]].
  - intros Hlt.
    destruct (base_at _ _ _ _ _ Hc i Hi) as [(Hl & _)|(_ & E)]; [lia | exact E].
  - intros Hge.
    destruct (base_at _ _ _ _ _ Hc i Hi)
      as [(_ & m & M & -> & -> & _)|(Hl & _)]; [now split | lia].
  - intros Hlt. apply Hno. rewrite Hdef. lia.
  - intros Hge. unfold oscillator_defined. split; intros Hosc.
    + apply Hyes, Hdef. repeat split; try lia.
      intros j Hj. apply (Hosc j); [lia|]. apply lookup_at. lia.
    + apply Hno. rewrite Hdef. intros (_ & _ & _ & Hall). apply Hosc.
      intros j x Hj Hx. apply at_lookup in Hx. subst x. apply Hall. lia.
Qed.

Lemma warm_up_lengths_witness :
  ((6 < 2 - 1)%Z ->
     Base_Support (row_at sample_table 6) = NaN /\
     Base_Resistance (row_at sample_table 6) = NaN) /\
  ((2 - 1 <= 6)%Z ->
     finite (Base_Support (row_at sample_table 6)) /\
     finite (Base_Resistance (row_at sample_table 6))) /\
  ((6 < 2 + 3 - 2)%Z ->
     Smooth_Support (row_at sample_table 6) = NaN /\
     Smooth_Resistance (row_at sample_table 6) = NaN /\
     Smooth_Midline (row_at sample_table 6) = NaN) /\
  ((2 + 3 - 2 <= 6)%Z ->
     (oscillator_defined sample_table (6 - 3) 6 ->
        finite (Smooth_Support (row_at sample_table 6)) /\
        finite (Smooth_Resistance (row_at sample_table 6)) /\
        finite (Smooth_Midline (row_at sample_table 6))) /\
     (~ oscillator_defined sample_table (6 - 3) 6 ->
        Smooth_Support (row_at sample_table 6) = NaN /\
        Smooth_Resistance (row_at sample_table 6) = NaN /\
        Smooth_Midline (row_at sample_table 6) = NaN)).
Proof.
  apply (warm_up_lengths falling_then_rising 2 2 3 sample_table 6);
    [vm_compute; reflexivity | lia | lia | vm_compute; reflexivity].
Defined.

(** C4 fails as stated: with lookback 5 and smoothing length 1 on
    [rising_then_flat] the base levels exist from position 4 on, yet at
    position 6 >= L+S-2 = 4 the smoothed support, resistance and midline
    are NaN (the oscillator is 0/0 there). *)
Lemma smoothed_undefined_after_warm_up :
  exists c,
    indicators (Fin <$> rising_then_flat) 2 5 1 = Ok c /\
    defined (at_ (cBase_Support c) 6) /\
    cSmooth_Support c !! 6 = Some NaN /\
    cSmooth_Resistance c !! 6 = Some NaN /\
    cSmooth_Midline c !! 6 = Some NaN.
Proof.
  eexists. split; [vm_compute; reflexivity|].
  repeat split; vm_compute; reflexivity.
Qed.

(** C9, as the code has it.  The valid region lists in increasing order
    the positions whose row has smoothed support, smoothed resistance,
    smoothed midline and oscillator all defined, and the valid rows are the
    rows of the table at those positions.  It runs on without a gap from a
    valid position [i] to a later position [j] provided the oscillator is
    defined at every position after [i] up to [j]. *)
Theorem valid_region_shape qs period lookback smooth c :
  indicators (Fin <$> qs) period lookback smooth = Ok c ->
  valid_positions c `sublist_of` seq 0 (length qs) /\
  dropna (rows c) = row_at c <$> valid_positions c /\
  (forall i, i ∈ valid_positions c <->
     i < length qs /\ complete (row_at c i) = true) /\
  (forall i j, i ∈ valid_positions c -> i <= j < length qs ->
     oscillator_defined c (Z.of_nat i) (Z.of_nat j) ->
     j ∈ valid_positions c).
Proof.
  intros Hc.
  destruct (table_lengths _ _ _ _ _ Hc) as (H1 & H2 & _).
  split; [rewrite <- H1; apply valid_positions_sublist|].
  split; [apply valid_rows_eq|].
  split; [intros i; rewrite <- H1; apply elem_of_valid_positions|].
  intros i j Hi Hj Hosc.
  apply elem_of_valid_positions in Hi as [Hi Hcomp].
  apply elem_of_valid_positions. rewrite H1 in *. split; [lia|].
  apply (complete_row _ _ _ _ _ Hc i Hi) in Hcomp as (Hl & Hs & Hls & Hall).
  apply (complete_row _ _ _ _ _ Hc j); [lia|].
  repeat split; try lia.
  intros k Hk. destruct (decide (k <= i)) as [Hki|Hki].
  - apply Hall. lia.
  - apply (Hosc k); [lia|]. apply lookup_at. lia.
Qed.

Lemma valid_region_shape_witness :
  valid_positions sample_table `sublist_of` seq 0 (length falling_then_rising) /\
  dropna (rows sample_table) = row_at sample_table <$> valid_positions sample_table /\
  (forall i, i ∈ valid_positions sample_table <->
     i < length falling_then_rising /\ complete (row_at sample_table i) = true) /\
  (forall i j, i ∈ valid_positions sample_table ->
     i <= j < length falling_then_rising ->
     oscillator_defined sample_table (Z.of_nat i) (Z.of_nat j) ->
     j ∈ valid_positions sample_table).
Proof.
  apply (valid_region_shape falling_then_rising 2 2 3 sample_table).
  vm_compute. reflexivity.
Defined.

(** C9 fails as stated: on [rising_then_flat] with period 2, lookback 5 and
    smoothing length 1 the valid region is positions 4 and 5 of 7 bars;
    position 5 is valid and position 6, which follows it, is not. *)
Lemma valid_region_not_trailing :
  exists c,
    indicators (Fin <$> rising_then_flat) 2 5 1 = Ok c /\
    length (rows c) = 7 /\
    valid_positions c = [4; 5] /\
    5 ∈ valid_positions c /\ 6 ∉ valid_positions c.
Proof.
  eexists. split; [vm_compute; reflexivity|].
  split; [reflexivity|].
  assert (valid_positions
            (table_of (indicators (Fin <$> rising_then_flat) 2 5 1)) = [4; 5])
    as E by (vm_compute; reflexivity).
  split; [exact E|]. change (5 ∈ [4; 5] /\ 6 ∉ [4; 5]). split.
  - apply elem_of_cons. right. apply elem_of_cons. now left.
  - intros H. apply elem_of_cons in H as [H|H]; [discriminate|].
    apply elem_of_cons in H as [H|H]; [discriminate|].
    now apply elem_of_nil in H.
Qed.

(** Too few bars for the lookback leave no valid row. *)
Lemma short_series_no_valid_row qs period lookback smooth c :
  indicators (Fin <$> qs) period lookback smooth = Ok c ->
  (Z.of_nat (length qs) < lookback)%Z ->
  valid_positions c = [].
Proof.
  intros Hc Hshort.
  destruct (table_lengths _ _ _ _ _ Hc) as (H1 & _).
  destruct (valid_positions c) as [|i v] eqn:E; [reflexivity|].
  assert (i ∈ valid_positions c) as Hi by (rewrite E; apply elem_of_cons; now left).
  apply elem_of_valid_positions in Hi as [Hi Hcomp]. rewrite H1 in Hi.
  apply (complete_row _ _ _ _ _ Hc i Hi) in Hcomp as (_ & Hs & Hls & _). lia.
Qed.

(** C6.  With parameters that pandas accepts the table is always computed;
    the run stops with the warning, and yields neither signals nor a latest
    row, exactly when the valid region is empty.  This is what happens
    whenever there are fewer bars than the lookback, for instance with 3
    bars and lookback 50. *)
Theorem empty_valid_region_stops qs period lookback smooth :
  (1 <= period)%Z -> (0 <= lookback)%Z -> (0 <= smooth)%Z ->
  exists c,
    indicators (Fin <$> qs) period lookback smooth = Ok c /\
    (valid_positions c = [] <-> pipeline qs period lookback smooth = Stopped) /\
    (valid_positions c = [] ->
       forall rep, pipeline qs period lookback smooth <> Completed rep) /\
    ((Z.of_nat (length qs) < lookback)%Z ->
       pipeline qs period lookback smooth = Stopped).
Proof.
  intros HP HL HS.
  destruct (indicators_total (Fin <$> qs) period lookback smooth HP HL HS)
    as [c Hc].
  exists c. split; [exact Hc|].
  assert (valid_positions c = [] <->
          pipeline qs period lookback smooth = Stopped) as Hiff.
  { rewrite pipeline_Stopped. split.
    - intros E. exists c. split; [exact Hc|]. now rewrite valid_rows_eq, E.
    - intros (c' & Hc' & E). assert (c' = c) as -> by congruence.
      unfold valid_positions. now rewrite E. }
  split; [exact Hiff|]. split.
  - intros E rep Hrep. apply Hiff in E. congruence.
  - intros Hshort. apply Hiff.
    eapply short_series_no_valid_row; eassumption.
Qed.

Lemma empty_valid_region_stops_witness :
  exists c,
    indicators (Fin <$> [1; 2; 3]%Q) 14 50 5 = Ok c /\
    (valid_positions c = [] <-> pipeline [1; 2; 3]%Q 14 50 5 = Stopped) /\
    (valid_positions c = [] ->
       forall rep, pipeline [1; 2; 3]%Q 14 50 5 <> Completed rep) /\
    ((Z.of_nat (length [1; 2; 3]%Q) < 50)%Z ->
       pipeline [1; 2; 3]%Q 14 50 5 = Stopped).
Proof. apply (empty_valid_region_stops [1; 2; 3]%Q 14 50 5); lia. Defined.

(** The table that [indicators] returns is the table that the lines leave
    behind when none of them raises. *)
Lemma indicators_script_Ok close P L S c :
  indicators close P L S = Ok c ->
  indicators_script close P L S = (stored_columns c, Ok tt).
Proof.
  unfold indicators, indicators_script.
  destruct (rsi_series close P) as [rsi|e]; [|discriminate].
  cbn [mbind result_bind].
  destruct (rolling L L smallest close) as [bs|e]; [|discriminate].
  destruct (rolling L L largest close) as [br|e]; [|discriminate].
  cbn [mbind result_bind].
  match goal with |- context [rolling S S mean ?a] =>
    destruct (rolling S S mean a) as [ss|e]; [|discriminate] end.
  match goal with |- context [rolling S S mean ?a] =>
    destruct (rolling S S mean a) as [sr|e]; [|discriminate] end.
  match goal with |- context [rolling S S mean ?a] =>
    destruct (rolling S S mean a) as [sm|e]; [|discriminate] end.
  cbn [mbind result_bind]. intros [= <-]. reflexivity.
Qed.

(** What is in the table when a line raises: nothing but Close when
    [rsi_series] raises (line 106), RSI and RSI_diff as well when the
    lookback window is refused (line 109), and eight derived columns when
    the smoothing window is refused (line 117). *)
Lemma indicators_script_Raise close P L S e :
  indicators close P L S = Raise e ->
  (indicators_script close P L S).2 = Raise e /\
  (indicators_script close P L S).1.*1 =
    if (P <? 1)%Z then ["Close"]
    else if (L <? 0)%Z then ["Close"; "RSI"; "RSI_diff"]
    else ["Close"; "RSI"; "RSI_diff"; "Base_Support"; "Base_Resistance";
          "Range"; "Adj_Support"; "Adj_Resistance"; "Midline"].
Proof.
  intros H. pose proof (proj1 (indicators_Raise _ _ _ _ _) H) as Hcase.
  clear H. destruct e. unfold indicators_script.
  destruct (rsi_series close P) as [rsi|e] eqn:Er.
  2:{ apply rsi_series_Raise in Er. destruct e.
      rewrite (proj2 (Z.ltb_lt P 1) Er). now split. }
  apply rsi_series_Ok in Er as [HP _].
  rewrite (proj2 (Z.ltb_ge P 1) HP).
  destruct (rolling L L smallest close) as [bs|e] eqn:Ebs.
  2:{ apply rolling_strict_Raise in Ebs. destruct e.
      rewrite (proj2 (Z.ltb_lt L 0) Ebs). now split. }
  apply rolling_strict_Ok in Ebs as [HL _].
  rewrite (proj2 (Z.ltb_ge L 0) HL).
  rewrite (proj2 (rolling_strict_Ok L largest close _) (conj HL eq_refl)).
  assert (S < 0)%Z as HS by lia.
  repeat match goal with |- context [rolling S S mean ?a] =>
    let E := fresh "E" in
    destruct (rolling S S mean a) as [?|[]] eqn:E;
      [apply rolling_strict_Ok in E; lia|] end.
  now split.
Qed.

(** C7, as the code has it.  The pipeline checks no parameter itself.  A
    run ends in an exception (the ValueError of pandas) exactly when
    rsiPeriod < 1, lookback < 0 or smoothLength < 0; with rsiPeriod = 1 or
    lookback = 0 it computes as usual.  The values that the input widgets
    accept (rsiPeriod in 2..100, lookback in 5..1000, smoothLength in
    1..200) never raise.  The exception does not come before all
    computation: the columns assigned before the line that raises stay in
    the table, none when rsiPeriod < 1, RSI and RSI_diff when the lookback
    is refused, and RSI, RSI_diff, Base_Support, Base_Resistance, Range,
    Adj_Support, Adj_Resistance and Midline when the smoothing length is
    refused. *)
Theorem only_impossible_windows_raise qs period lookback smooth :
  ((exists e, pipeline qs period lookback smooth = Raised e) <->
   (period < 1)%Z \/ (lookback < 0)%Z \/ (smooth < 0)%Z) /\
  (accepted_by_inputs period lookback smooth ->
   forall e, pipeline qs period lookback smooth <> Raised e) /\
  (forall e, pipeline qs period lookback smooth = Raised e ->
   (indicators_script (Fin <$> qs) period lookback smooth).2 = Raise e /\
   (indicators_script (Fin <$> qs) period lookback smooth).1.*1 =
     if (period <? 1)%Z then ["Close"]
     else if (lookback <? 0)%Z then ["Close"; "RSI"; "RSI_diff"]
     else ["Close"; "RSI"; "RSI_diff"; "Base_Support"; "Base_Resistance";
           "Range"; "Adj_Support"; "Adj_Resistance"; "Midline"]).
Proof.
  split; [|split].
  - split.
    + intros [e He]. now apply pipeline_Raised in He.
    + intros H. exists ValueError. now apply pipeline_Raised.
  - intros (H1 & H2 & H3) e He. apply pipeline_Raised in He. lia.
  - intros e He. apply indicators_script_Raise.
    apply pipeline_Raised in He. now apply indicators_Raise.
Qed.

Lemma only_impossible_windows_raise_witness :
  (accepted_by_inputs 14 50 5 /\
   forall e, pipeline falling_then_rising 14 50 5 <> Raised e) /\
  (pipeline falling_then_rising 0 50 5 = Raised ValueError /\
   (indicators_script (Fin <$> falling_then_rising) 0 50 5).2
     = Raise ValueError /\
   (indicators_script (Fin <$> falling_then_rising) 0 50 5).1.*1
     = ["Close"]) /\
  (pipeline falling_then_rising 14 (-1) 5 = Raised ValueError /\
   (indicators_script (Fin <$> falling_then_rising) 14 (-1) 5).2
     = Raise ValueError /\
   (indicators_script (Fin <$> falling_then_rising) 14 (-1) 5).1.*1
     = ["Close"; "RSI"; "RSI_diff"]) /\
  (pipeline falling_then_rising 14 50 (-1) = Raised ValueError /\
   (indicators_script (Fin <$> falling_then_rising) 14 50 (-1)).2
     = Raise ValueError /\
   (indicators_script (Fin <$> falling_then_rising) 14 50 (-1)).1.*1
     = ["Close"; "RSI"; "RSI_diff"; "Base_Support"; "Base_Resistance";
        "Range"; "Adj_Support"; "Adj_Resistance"; "Midline"]).
Proof.
  assert (accepted_by_inputs 14 50 5) as H by (unfold accepted_by_inputs; lia).
  assert (pipeline falling_then_rising 0 50 5 = Raised ValueError) as H0
    by reflexivity.
  assert (pipeline falling_then_rising 14 (-1) 5 = Raised ValueError) as H1
    by reflexivity.
  assert (pipeline falling_then_rising 14 50 (-1) = Raised ValueError) as H2
    by reflexivity.
  split; [split; [exact H|]|split; [|split]].
  - exact (proj1 (proj2
      (only_impossible_windows_raise falling_then_rising 14 50 5)) H).
  - split; [exact H0|].
    exact (proj2 (proj2
      (only_impossible_windows_raise falling_then_rising 0 50 5)) _ H0).
  - split; [exact H1|].
    exact (proj2 (proj2
      (only_impossible_windows_raise falling_then_rising 14 (-1) 5)) _ H1).
  - split; [exact H2|].
    exact (proj2 (proj2
      (only_impossible_windows_raise falling_then_rising 14 50 (-1))) _ H2).
Defined.

(** C7 fails as stated: with rsiPeriod = 1 the run raises nothing and
    completes with a report. *)
Lemma period_one_completes :
  exists rep,
    pipeline (inject_Z <$> [1; 2; 3; 4; 5; 6]%Z) 1 5 1 = Completed rep /\
    index <$> valid_rows rep = [4; 5].
Proof. eexists. split; vm_compute; reflexivity. Qed.

(** C2, as the code has it.  Where the trailing average loss is 0 the
    oscillator is 100 if the trailing average gain is positive (x/0 is
    +inf, and 100 - 100/inf = 100), and NaN if the average gain is 0 too
    (0/0).  For identical closes every gain and loss is 0, so the oscillator
    is NaN at every position. *)
Theorem zero_average_loss qs period :
  (1 <= period)%Z ->
  exists ag al rsi,
    avg_gain (Fin <$> qs) period = Ok ag /\
    avg_loss (Fin <$> qs) period = Ok al /\
    rsi_series (Fin <$> qs) period = Ok rsi /\
    (forall i l, al !! i = Some l -> feq l 0%Z ->
       exists g, ag !! i = Some (Fin g) /\ (0 <= g)%Q /\
         ((0 < g)%Q -> rsi !! i = Some (of_Z 100)) /\
         (g == 0 -> rsi !! i = Some NaN)) /\
    (forall c, qs = replicate (length qs) c ->
       rsi = replicate (length qs) NaN).
Proof.
  intros HP.
  destruct (rsi_series (Fin <$> qs) period) as [rsi|e] eqn:E.
  2:{ apply rsi_series_Raise in E. lia. }
  exists (roll (Z.to_nat period) 1 mean (gain (Fin <$> qs))),
         (roll (Z.to_nat period) 1 mean (loss (Fin <$> qs))), rsi.
  split; [apply rolling_Ok; split; [lia | reflexivity]|].
  split; [apply rolling_Ok; split; [lia | reflexivity]|].
  split; [reflexivity|]. split.
  - intros i l Hl Hz.
    assert (i < length qs) as Hi.
    { apply lookup_lt_Some in Hl.
      now rewrite length_roll, length_loss, length_fmap in Hl. }
    destruct (rsi_series_at _ _ _ _ E Hi) as (g & l' & Eg & El & Hg & Hl' & Ex).
    rewrite lookup_roll in Hl by now rewrite length_loss, length_fmap.
    assert (l = Fin l') as -> by congruence.
    simpl in Hz. unfold inject_Z in Hz.
    exists g. split.
    { rewrite lookup_roll by now rewrite length_gain, length_fmap.
      now rewrite Eg. }
    split; [exact Hg|]. rewrite Ex.
    destruct (rsi_of_cases g l' Hg Hl')
      as [(_ & H0 & Er)|[(_ & Hpos & Er)|(Hpos & _)]]; [| |lra];
      rewrite Er; split; intros H; (reflexivity || lra).
  - intros c Hflat. rewrite Hflat in E.
    rewrite (rsi_series_flat c (length qs) period HP) in E. congruence.
Qed.

Lemma zero_average_loss_witness :
  exists ag al rsi,
    avg_gain (Fin <$> replicate 100 10%Q) 14 = Ok ag /\
    avg_loss (Fin <$> replicate 100 10%Q) 14 = Ok al /\
    rsi_series (Fin <$> replicate 100 10%Q) 14 = Ok rsi /\
    (forall i l, al !! i = Some l -> feq l 0%Z ->
       exists g, ag !! i = Some (Fin g) /\ (0 <= g)%Q /\
         ((0 < g)%Q -> rsi !! i = Some (of_Z 100)) /\
         (g == 0 -> rsi !! i = Some NaN)) /\
    (forall c, replicate 100 10%Q = replicate (length (replicate 100 10%Q)) c ->
       rsi = replicate (length (replicate 100 10%Q)) NaN).
Proof. apply (zero_average_loss (replicate 100 10%Q) 14). lia. Defined.

(** C2 fails as stated: for 100 identical closes and period 14 the
    trailing average loss at position 1 is 0, and the oscillator there is
    NaN, not 100; so it is at position 99. *)
Lemma flat_closes_oscillator_undefined :
  exists al rsi,
    avg_loss (Fin <$> replicate 100 10%Q) 14 = Ok al /\
    rsi_series (Fin <$> replicate 100 10%Q) 14 = Ok rsi /\
    (exists z, al !! 1 = Some (Fin z) /\ z == 0) /\
    rsi !! 1 = Some NaN /\ rsi !! 99 = Some NaN.
Proof.
  do 2 eexists. split; [vm_compute; reflexivity|].
  split; [vm_compute; reflexivity|]. split.
  - eexists. split; [vm_compute; reflexivity | reflexivity].
  - split; vm_compute; reflexivity.
Qed.

(** * Further properties of the script *)

(** ** Fetching the bars *)

Lemma length_omap_le {A B} (f : A -> option B) (xs : list A) :
  length (omap f xs) <= length xs.
Proof.
  induction xs as [|x xs IH]; simpl; [lia|].
  change (list_omap A B f xs) with (omap f xs).
  destruct (f x); simpl; lia.
Qed.

Section FetchFacts.

Variable download : string -> string -> string -> string + DataFrame.

Lemma first_level_empty df : df_empty (first_level df) = df_empty df.
Proof.
  unfold first_level, df_empty, df_len.
  destruct df as [[names|tuples] rs]; simpl; [reflexivity|].
  now rewrite length_fmap.
Qed.

Lemma answered_app sym xs ys :
  answered download sym (xs ++ ys) =
  answered download sym xs ++ answered download sym ys.
Proof. unfold answered. apply omap_app. Qed.

Lemma try_combos_useless sym combos attempts tried :
  Forall (useless download sym) combos ->
  try_combos download sym combos attempts tried =
  (no_frame, tried ++ answered download sym combos).
Proof.
  intros H. revert attempts tried.
  induction H as [|[p i] rest Hc _ IH]; intros attempts tried; simpl.
  - now rewrite app_nil_r.
  - unfold useless in Hc. simpl in Hc. unfold answered. simpl.
    destruct (download sym p i) as [e|df].
    + apply IH.
    + rewrite Hc, IH. now rewrite <- app_assoc.
Qed.

Lemma try_combos_first sym pre p i post raw attempts tried :
  Forall (useless download sym) pre ->
  download sym p i = inr raw -> df_empty raw = false ->
  try_combos download sym (pre ++ (p, i) :: post) attempts tried =
  (first_level raw, tried ++ answered download sym pre ++ [(p, i, df_len raw)]).
Proof.
  intros H Hd He. revert attempts tried.
  induction H as [|[p' i'] rest Hc _ IH]; intros attempts tried; simpl.
  - now rewrite Hd, He.
  - unfold useless in Hc. simpl in Hc. unfold answered. simpl.
    destruct (download sym p' i') as [e|df].
    + apply IH.
    + rewrite Hc, IH. now rewrite <- app_assoc.
Qed.

(** Either no combination is of use, or there is a first one that is. *)
Lemma combos_split sym combos :
  Forall (useless download sym) combos \/
  exists pre p i post raw,
    combos = pre ++ (p, i) :: post /\ Forall (useless download sym) pre /\
    download sym p i = inr raw /\ df_empty raw = false.
Proof.
  induction combos as [|[p i] rest IH]; [left; constructor|].
  destruct (download sym p i) as [e|df] eqn:Ed.
  - destruct IH as [IH|(pre & p' & i' & post & raw & -> & Hpre & Hd & He)].
    + left. constructor; [|exact IH]. unfold useless. simpl. now rewrite Ed.
    + right. exists ((p, i) :: pre), p', i', post, raw.
      repeat split; try assumption. constructor; [|exact Hpre].
      unfold useless. simpl. now rewrite Ed.
  - destruct (df_empty df) eqn:Ee.
    + destruct IH as [IH|(pre & p' & i' & post & raw & -> & Hpre & Hd & He)].
      * left. constructor; [|exact IH]. unfold useless. simpl. now rewrite Ed.
      * right. exists ((p, i) :: pre), p', i', post, raw.
        repeat split; try assumption. constructor; [|exact Hpre].
        unfold useless. simpl. now rewrite Ed.
    + right. exists [], p, i, rest, df. repeat split; try assumption.
      constructor.
Qed.

(** X1.  When [load_data] returns a table that is not empty, that table is
    the answer (with single-level columns) to the first combination, in the
    order user's choice then fallbacks, whose download succeeded with a
    non-empty table; every combination before it failed or answered with an
    empty table, and [tried] logs the answered ones up to it. *)
Theorem load_data_first_usable sym per itv autofix df tried :
  load_data download sym per itv autofix = (df, tried) ->
  df_empty df = false ->
  exists pre p i post raw,
    combos_of per itv autofix = pre ++ (p, i) :: post /\
    Forall (useless download sym) pre /\
    download sym p i = inr raw /\ df_empty raw = false /\
    df = first_level raw /\
    tried = answered download sym pre ++ [(p, i, df_len raw)].
Proof.
  unfold load_data. intros Hrun Hne.
  destruct (combos_split sym (combos_of per itv autofix))
    as [Hall|(pre & p & i & post & raw & E & Hpre & Hd & He)].
  - rewrite (try_combos_useless _ _ _ _ Hall) in Hrun.
    injection Hrun as <- _. discriminate.
  - rewrite E, (try_combos_first _ _ _ _ _ _ _ _ Hpre Hd He) in Hrun.
    injection Hrun as <- <-.
    exists pre, p, i, post, raw. rewrite <- E. repeat split; assumption.
Qed.

(** X2.  [load_data] returns an empty table exactly when every combination
    fails or answers with an empty table; the table is then the fresh
    [pd.DataFrame()] and [tried] logs every download that answered. *)
Theorem load_data_empty_iff sym per itv autofix :
  (df_empty (load_data download sym per itv autofix).1 = true <->
   Forall (useless download sym) (combos_of per itv autofix)) /\
  (Forall (useless download sym) (combos_of per itv autofix) ->
   load_data download sym per itv autofix =
   (no_frame, answered download sym (combos_of per itv autofix))).
Proof.
  unfold load_data.
  destruct (combos_split sym (combos_of per itv autofix))
    as [Hall|(pre & p & i & post & raw & E & Hpre & Hd & He)].
  - rewrite (try_combos_useless _ _ _ _ Hall). simpl. tauto.
  - rewrite E, (try_combos_first _ _ _ _ _ _ _ _ Hpre Hd He). simpl.
    rewrite first_level_empty, He.
    assert (~ Forall (useless download sym) (pre ++ (p, i) :: post)) as Hn.
    { intros H. apply Forall_app in H as [_ H]. apply Forall_cons in H as [H _].
      unfold useless in H. simpl in H. rewrite Hd in H. congruence. }
    split; [split; [discriminate | tauto] | tauto].
Qed.

(** X3.  The table that [load_data] returns always has single-level column
    labels. *)
Theorem load_data_columns_flat sym per itv autofix :
  exists names,
    df_columns (load_data download sym per itv autofix).1 = Index names.
Proof.
  unfold load_data.
  destruct (combos_split sym (combos_of per itv autofix))
    as [Hall|(pre & p & i & post & raw & E & Hpre & Hd & He)].
  - rewrite (try_combos_useless _ _ _ _ Hall). now exists [].
  - rewrite E, (try_combos_first _ _ _ _ _ _ _ _ Hpre Hd He). simpl.
    unfold first_level. destruct raw as [[names|tuples] rs]; simpl; eauto.
Qed.

(** X4.  The log [tried] is what the downloads answered on an initial
    stretch of the combinations, in their order, each with the number of
    rows received; with the automatic fix off it has at most one entry. *)
Theorem load_data_tried_log sym per itv autofix :
  (exists k,
     (load_data download sym per itv autofix).2 =
     answered download sym (take k (combos_of per itv autofix))) /\
  (autofix = false ->
   length (load_data download sym per itv autofix).2 <= 1).
Proof.
  assert (exists k,
     (load_data download sym per itv autofix).2 =
     answered download sym (take k (combos_of per itv autofix))) as Hk.
  { unfold load_data.
    destruct (combos_split sym (combos_of per itv autofix))
      as [Hall|(pre & p & i & post & raw & E & Hpre & Hd & He)].
    - rewrite (try_combos_useless _ _ _ _ Hall). simpl.
      exists (length (combos_of per itv autofix)). now rewrite firstn_all.
    - rewrite E, (try_combos_first _ _ _ _ _ _ _ _ Hpre Hd He). simpl.
      exists (S (length pre)).
      replace (pre ++ (p, i) :: post) with ((pre ++ [(p, i)]) ++ post)
        by now rewrite <- app_assoc.
      rewrite take_app_length' by (rewrite length_app; simpl; lia).
      rewrite answered_app. f_equal. unfold answered. simpl. now rewrite Hd. }
  split; [exact Hk|]. intros ->. destruct Hk as [k ->].
  unfold answered. etransitivity; [apply length_omap_le|].
  rewrite length_take. simpl. lia.
Qed.

End FetchFacts.

Lemma load_data_first_usable_witness :
  exists pre p i post raw,
    combos_of "1mo" "5m" true = pre ++ (p, i) :: post /\
    Forall (useless sample_download "AAPL") pre /\
    sample_download "AAPL" p i = inr raw /\ df_empty raw = false /\
    first_level sample_frame = first_level raw /\
    [("1mo", "5m", 0); ("1y", "1d", 2)] =
    answered sample_download "AAPL" pre ++ [(p, i, df_len raw)].
Proof.
  apply (load_data_first_usable sample_download "AAPL" "1mo" "5m" true);
    reflexivity.
Defined.

Lemma load_data_empty_iff_witness :
  Forall (useless sample_download "AAPL") (combos_of "7d" "1m" false) /\
  load_data sample_download "AAPL" "7d" "1m" false =
  (no_frame, answered sample_download "AAPL" (combos_of "7d" "1m" false)).
Proof.
  assert (Forall (useless sample_download "AAPL") (combos_of "7d" "1m" false))
    as H by (repeat constructor).
  split; [exact H|].
  exact (proj2 (load_data_empty_iff sample_download "AAPL" "7d" "1m" false) H).
Defined.

Lemma load_data_tried_log_witness :
  false = false /\
  length (load_data sample_download "AAPL" "1mo" "5m" false).2 <= 1.
Proof.
  split; [reflexivity|].
  exact (proj2 (load_data_tried_log sample_download "AAPL" "1mo" "5m" false)
           eq_refl).
Defined.

(** ** The signals and the recommendation *)

Lemma fltb_asym x y : fltb x y = true -> fltb y x = false.
Proof.
  destruct x as [|s|p], y as [|t|q]; simpl; try congruence.
  - destruct s, t; simpl; congruence.
  - destruct s; simpl; congruence.
  - destruct t; simpl; congruence.
  - rewrite QMicromega.Qlt_bool_iff, Qlt_bool_false. intros H. lra.
Qed.

Lemma signals_exclusive_at v i b s :
  Buy_Signal v !! i = Some b -> Sell_Signal v !! i = Some s -> b && s = false.
Proof.
  intros Hb Hs.
  assert (i < length v) as Hi.
  { apply lookup_lt_Some in Hb. now rewrite length_Buy_Signal in Hb. }
  destruct i as [|i].
  - destruct (lookup_lt_is_Some_2 v 0 Hi) as [r Hr].
    rewrite (Buy_Signal_first _ _ Hr) in Hb. now injection Hb as <-.
  - destruct (lookup_lt_is_Some_2 v (S i) Hi) as [r Hr].
    destruct (lookup_lt_is_Some_2 v i ltac:(lia)) as [p Hp].
    rewrite (Buy_Signal_next _ _ _ _ Hr Hp) in Hb.
    rewrite (Sell_Signal_next _ _ _ _ Hr Hp) in Hs.
    injection Hb as <-. injection Hs as <-.
    unfold fgtb.
    destruct (fltb (RSI p) (RSI r)) eqn:E.
    + rewrite (fltb_asym _ _ E). now rewrite !andb_false_r.
    + now rewrite andb_false_r.
Qed.

(** X5.  Whatever the valid rows are, no row carries a buy and a sell
    signal at once: the two rules ask for opposite moves of the
    oscillator. *)
Theorem signals_never_both v :
  length (Buy_Signal v) = length v /\ length (Sell_Signal v) = length v /\
  Forall (fun bs : bool * bool => bs.1 && bs.2 = false)
    (zip (Buy_Signal v) (Sell_Signal v)).
Proof.
  split; [apply length_Buy_Signal|]. split; [apply length_Sell_Signal|].
  apply Forall_lookup. intros i [b s] H.
  apply lookup_zip_with_Some in H as (b' & s' & [= <- <-] & Hb & Hs).
  simpl. eapply signals_exclusive_at; eassumption.
Qed.

(** X6.  On a completed run the recommendation reads the flags of the last
    valid row: BUY exactly when its buy flag is set, SELL exactly when its
    sell flag is set, WAIT exactly when neither is; with a single valid row
    it is WAIT. *)
Theorem recommendation_follows_latest qs period lookback smooth rep :
  pipeline qs period lookback smooth = Completed rep ->
  last (valid_rows rep) = Some (latest rep) /\
  last (buy rep) = Some (latest_buy rep) /\
  last (sell rep) = Some (latest_sell rep) /\
  (recommendation rep = BUY <-> latest_buy rep = true) /\
  (recommendation rep = SELL <-> latest_sell rep = true) /\
  (recommendation rep = WAIT <->
     latest_buy rep = false /\ latest_sell rep = false) /\
  (length (valid_rows rep) = 1 -> recommendation rep = WAIT).
Proof.
  intros Hrun.
  destruct (pipeline_Completed _ _ _ _ _ Hrun)
    as (c & _ & Ev & Eb & Es & Hl & Hlb & Hls & Hrec).
  rewrite Ev. split; [exact Hl|]. split; [exact Hlb|]. split; [exact Hls|].
  assert (latest_buy rep && latest_sell rep = false) as Hex.
  { rewrite last_lookup in Hlb, Hls.
    rewrite Eb in Hlb. rewrite Es in Hls.
    rewrite length_Buy_Signal in Hlb. rewrite length_Sell_Signal in Hls.
    eapply signals_exclusive_at; eassumption. }
  rewrite Hrec. unfold advise.
  destruct (latest_buy rep) eqn:B, (latest_sell rep) eqn:S'; simpl in Hex;
    try discriminate.
  - repeat split; try congruence; try (intros [? ?]; congruence).
    intros Hone. exfalso. rewrite last_lookup in Hlb.
    rewrite Eb, length_Buy_Signal, Hone in Hlb. simpl in Hlb.
    destruct (dropna (rows c)) as [|r v] eqn:Ed; [discriminate|].
    rewrite (Buy_Signal_first (r :: v) r eq_refl) in Hlb. congruence.
  - repeat split; try congruence; try (intros [? ?]; congruence).
    intros Hone. exfalso. rewrite last_lookup in Hls.
    rewrite Es, length_Sell_Signal, Hone in Hls. simpl in Hls.
    destruct (dropna (rows c)) as [|r v] eqn:Ed; [discriminate|].
    rewrite (Sell_Signal_first (r :: v) r eq_refl) in Hls. congruence.
  - repeat split; congruence.
Qed.

Lemma recommendation_follows_latest_witness :
  last (valid_rows sample_report) = Some (latest sample_report) /\
  last (buy sample_report) = Some (latest_buy sample_report) /\
  last (sell sample_report) = Some (latest_sell sample_report) /\
  (recommendation sample_report = BUY <-> latest_buy sample_report = true) /\
  (recommendation sample_report = SELL <-> latest_sell sample_report = true) /\
  (recommendation sample_report = WAIT <->
     latest_buy sample_report = false /\ latest_sell sample_report = false) /\
  (length (valid_rows sample_report) = 1 -> recommendation sample_report = WAIT).
Proof.
  apply (recommendation_follows_latest falling_then_rising 2 2 3).
  vm_compute. reflexivity.
Defined.

(** ** More on the oscillator *)

(** The price change at each position: NaN at the start, then the
    difference with the close before. *)
Lemma diff_Fin_lookup qs k d :
  diff (Fin <$> qs) !! k = Some d ->
  (k = 0 /\ d = NaN) \/
  (exists j a b, k = S j /\ qs !! j = Some a /\ qs !! S j = Some b /\
                 d = Fin (b + - a)).
Proof.
  unfold diff. intros H.
  apply lookup_zip_with_Some in H as (x & y & -> & Hx & Hy).
  rewrite list_lookup_fmap in Hx.
  destruct (qs !! k) as [b|] eqn:Eb; [|discriminate]. injection Hx as <-.
  destruct k as [|j].
  - left. rewrite lookup_shift_0 in Hy by (destruct qs; discriminate).
    injection Hy as <-. now split.
  - right. rewrite lookup_shift_S in Hy.
    2:{ rewrite length_fmap. now apply lookup_lt_Some in Eb. }
    rewrite list_lookup_fmap in Hy.
    destruct (qs !! j) as [a|] eqn:Ea; [|discriminate]. injection Hy as <-.
    exists j, a, b. repeat split; reflexivity || assumption.
Qed.

Lemma loss_never_falls qs :
  never_falls qs -> Forall (fun x => feq x 0%Z) (loss (Fin <$> qs)).
Proof.
  intros Hmono. rewrite loss_eq. apply Forall_fmap, Forall_lookup.
  intros k d Hd. simpl.
  destruct (diff_Fin_lookup _ _ _ Hd) as [[_ ->]|(j & a & b & _ & Ha & Hb & ->)];
    simpl; [reflexivity|].
  pose proof (Hmono j a b Ha Hb) as Hab.
  rewrite (proj2 (Qlt_bool_false _ _)); [reflexivity|].
  unfold inject_Z. lra.
Qed.

Lemma gain_never_rises qs :
  never_rises qs -> Forall (fun x => feq x 0%Z) (gain (Fin <$> qs)).
Proof.
  intros Hmono. rewrite gain_eq. apply Forall_fmap, Forall_lookup.
  intros k d Hd. simpl.
  destruct (diff_Fin_lookup _ _ _ Hd) as [[_ ->]|(j & a & b & _ & Ha & Hb & ->)];
    simpl; [reflexivity|].
  pose proof (Hmono j a b Ha Hb) as Hab. unfold fgtb; simpl.
  rewrite (proj2 (Qlt_bool_false _ _)); [reflexivity|].
  unfold inject_Z. lra.
Qed.

Lemma rsi_closed g l :
  (0 <= g)%Q -> (0 < l)%Q -> 100 - 100 / (1 + g / l) == 100 * g / (g + l).
Proof. intros Hg Hl. field. split; lra. Qed.

(** At the first bar there is no price change: no gain, no loss, and the
    oscillator is 0/0. *)
Lemma rsi_series_first qs period rsi :
  rsi_series (Fin <$> qs) period = Ok rsi -> qs <> [] -> rsi !! 0 = Some NaN.
Proof.
  intros E Hne.
  assert (0 < length qs) as Hi by (destruct qs; [congruence | simpl; lia]).
  pose proof (proj1 (rsi_series_Ok _ _ _) E) as [HP _].
  destruct (rsi_series_at _ _ _ _ E Hi) as (g & l & Eg & El & Hg & Hl & ->).
  assert (forall s : Series,
            (forall x, s !! 0 = Some x -> feq x 0%Z) ->
            Forall (fun x => feq x 0%Z) (window (Z.to_nat period) 0 s)) as Hw.
  { intros s Hs. apply Forall_lookup. intros k x Hk.
    unfold window in Hk. rewrite lookup_drop, lookup_take in Hk.
    destruct (decide (1 - Z.to_nat period + k < 1)); [|discriminate].
    apply Hs. now replace (1 - Z.to_nat period + k) with 0 in Hk by lia. }
  assert (forall f : float64 -> float64, feq (f NaN) 0%Z ->
            forall x, (f <$> diff (Fin <$> qs)) !! 0 = Some x -> feq x 0%Z)
    as Hz.
  { intros f Hf x Hx. rewrite list_lookup_fmap in Hx.
    destruct (diff (Fin <$> qs) !! 0) as [d|] eqn:Ed; [|discriminate].
    injection Hx as <-.
    destruct (diff_Fin_lookup _ _ _ Ed) as [[_ ->]|(j & _ & _ & ? & _)];
      [exact Hf | discriminate]. }
  destruct (average_zero (Z.to_nat period) (gain (Fin <$> qs)) 0) as (g' & Eg' & Hg').
  { lia. } { now rewrite length_gain, length_fmap. } { apply gain_nonneg. }
  { apply Hw. rewrite gain_eq. apply Hz. reflexivity. }
  destruct (average_zero (Z.to_nat period) (loss (Fin <$> qs)) 0) as (l' & El' & Hl').
  { lia. } { now rewrite length_loss, length_fmap. } { apply loss_nonneg. }
  { apply Hw. rewrite loss_eq. apply Hz. reflexivity. }
  assert (g' = g) as -> by congruence. assert (l' = l) as -> by congruence.
  destruct (rsi_of_cases g l Hg Hl) as [(_ & _ & ->)|[(_ & H & _)|(H & _)]];
    [reflexivity | lra | lra].
Qed.

(** X8.  In a series of closes that never falls the oscillator is 100
    wherever it is defined, and in one that never rises it is 0 wherever it
    is defined. *)
Theorem oscillator_of_one_way_series qs period rsi :
  rsi_series (Fin <$> qs) period = Ok rsi ->
  (never_falls qs ->
   forall i x, rsi !! i = Some x -> defined x -> x = of_Z 100) /\
  (never_rises qs ->
   forall i x, rsi !! i = Some x -> defined x -> feq x 0%Z).
Proof.
  intros E.
  pose proof (proj1 (rsi_series_Ok _ _ _) E) as [HP _].
  assert (forall i x, rsi !! i = Some x ->
            i < length qs /\
            i < length (gain (Fin <$> qs)) /\ i < length (loss (Fin <$> qs)))
    as Hlen.
  { intros i x Hx. apply lookup_lt_Some in Hx.
    rewrite (length_rsi_series _ _ _ E), length_fmap in Hx.
    now rewrite length_gain, length_loss, length_fmap. }
  split; intros Hmono i x Hx Hd; destruct (Hlen i x Hx) as (Hi & Hig & Hil);
    destruct (rsi_series_at _ _ _ _ E Hi) as (g & l & Eg & El & Hg & Hl & Ex);
    rewrite Ex in Hx;
    assert (x = rsi_of (fdiv (Fin g) (Fin l))) as -> by congruence.
  - destruct (average_zero (Z.to_nat period) _ i ltac:(lia) Hil (loss_nonneg _)
                (Forall_window _ _ _ _ (loss_never_falls _ Hmono)))
      as (l' & El' & Hl').
    assert (l' = l) as -> by congruence.
    destruct (rsi_of_cases g l Hg Hl)
      as [(_ & _ & Er)|[(_ & _ & Er)|(H & _)]]; [|exact Er|lra].
    rewrite Er in Hd. now apply not_defined_NaN in Hd.
  - destruct (average_zero (Z.to_nat period) _ i ltac:(lia) Hig (gain_nonneg _)
                (Forall_window _ _ _ _ (gain_never_rises _ Hmono)))
      as (g' & Eg' & Hg').
    assert (g' = g) as -> by congruence.
    destruct (rsi_of_cases g l Hg Hl)
      as [(_ & _ & Er)|[(_ & H & _)|(Hpos & q & Er & _ & Hq)]]; [|lra|].
    + rewrite Er in Hd. now apply not_defined_NaN in Hd.
    + rewrite Er. simpl. rewrite Hq, (rsi_closed g l Hg Hpos), Hg'.
      unfold inject_Z. field. lra.
Qed.

Lemma oscillator_of_one_way_series_witness :
  never_falls rising_then_flat /\
  table_of_rsi rising_then_flat 2 !! 5 = Some (of_Z 100).
Proof.
  assert (never_falls rising_then_flat) as H.
  { intros k a b Ha Hb.
    do 6 (destruct k as [|k]; [injection Ha as <-; injection Hb as <-;
                               vm_compute; discriminate|]).
    destruct k; discriminate. }
  split; [exact H|].
  assert (table_of_rsi rising_then_flat 2 !! 5 = Some (Fin (100 + - 0))) as E
    by (vm_compute; reflexivity).
  rewrite E. apply (f_equal Some).
  apply (proj1 (oscillator_of_one_way_series rising_then_flat 2
                  (table_of_rsi rising_then_flat 2) eq_refl) H 5);
    [exact E | reflexivity].
Defined.

(** ** More on the channel *)

Lemma smallest_Fin_spec q qs :
  exists m, smallest (Fin <$> q :: qs) = Fin m /\
            Forall (fun x => m <= x)%Q (q :: qs) /\ m ∈ q :: qs.
Proof.
  simpl. induction qs as [|r qs (m & IH & Hall & Hin)]; simpl.
  - exists q. split; [reflexivity|]. split; [|apply elem_of_cons; now left].
    repeat constructor. lra.
  - rewrite IH. unfold fmin; simpl.
    apply Forall_cons in Hall as [Hq Hall].
    destruct (Qle_bool r m) eqn:E.
    + apply Qle_bool_iff in E. exists r. split; [reflexivity|]. split.
      * constructor; [lra|]. constructor; [lra|].
        eapply Forall_impl; [exact Hall|]. simpl. intros x Hx. lra.
      * apply elem_of_cons. right. apply elem_of_cons. now left.
    + assert (~ (r <= m)%Q) by (rewrite <- Qle_bool_iff; congruence).
      exists m. split; [reflexivity|]. split.
      * constructor; [exact Hq|]. constructor; [lra | exact Hall].
      * apply elem_of_cons in Hin as [->|Hin].
        -- apply elem_of_cons. now left.
        -- apply elem_of_cons. right. apply elem_of_cons. now right.
Qed.

Lemma largest_Fin_spec q qs :
  exists M, largest (Fin <$> q :: qs) = Fin M /\
            Forall (fun x => x <= M)%Q (q :: qs) /\ M ∈ q :: qs.
Proof.
  simpl. induction qs as [|r qs (M & IH & Hall & Hin)]; simpl.
  - exists q. split; [reflexivity|]. split; [|apply elem_of_cons; now left].
    repeat constructor. lra.
  - rewrite IH. unfold fmax; simpl.
    apply Forall_cons in Hall as [Hq Hall].
    destruct (Qle_bool r M) eqn:E.
    + apply Qle_bool_iff in E. exists M. split; [reflexivity|]. split.
      * constructor; [exact Hq|]. constructor; [lra | exact Hall].
      * apply elem_of_cons in Hin as [->|Hin].
        -- apply elem_of_cons. now left.
        -- apply elem_of_cons. right. apply elem_of_cons. now right.
    + assert (~ (r <= M)%Q) by (rewrite <- Qle_bool_iff; congruence).
      exists r. split; [reflexivity|]. split.
      * constructor; [lra|]. constructor; [lra|].
        eapply Forall_impl; [exact Hall|]. simpl. intros x Hx. lra.
      * apply elem_of_cons. right. apply elem_of_cons. now left.
Qed.

(** Membership in a window, by position. *)
Lemma elem_of_window {A} w i (s : list A) x :
  i < length s ->
  x ∈ window w i s <-> exists j, S i - w <= j <= i /\ s !! j = Some x.
Proof.
  intros Hi. rewrite list_elem_of_lookup. split.
  - intros [k Hk].
    assert (k < w `min` S i) as Hlt.
    { apply lookup_lt_Some in Hk. rewrite length_window in Hk; lia. }
    rewrite lookup_window in Hk by exact Hlt.
    exists (S i - w + k). split; [lia | exact Hk].
  - intros (j & Hj & Hx). exists (j - (S i - w)).
    rewrite lookup_window by lia.
    now replace (S i - w + (j - (S i - w))) with j by lia.
Qed.

Lemma base_extremes qs period lookback smooth c i r :
  indicators (Fin <$> qs) period lookback smooth = Ok c ->
  rows c !! i = Some r ->
  defined (Base_Support r) ->
  exists m M cl,
    Base_Support r = Fin m /\ Base_Resistance r = Fin M /\ Close r = Fin cl /\
    (m <= cl <= M)%Q /\
    (forall j q, S i - Z.to_nat lookback <= j <= i -> qs !! j = Some q ->
                 (m <= q <= M)%Q) /\
    (exists j, S i - Z.to_nat lookback <= j <= i /\ qs !! j = Some m) /\
    (exists j, S i - Z.to_nat lookback <= j <= i /\ qs !! j = Some M).
Proof.
  intros Hc Hr Hd. apply (rows_lookup _ _ _ _ _ Hc) in Hr as [Hi ->].
  simpl in *.
  destruct (base_at _ _ _ _ _ Hc i Hi) as [(Hl & _)|(_ & E & _)].
  2:{ rewrite E in Hd. now apply not_defined_NaN in Hd. }
  destruct (table_assigned _ _ _ _ _ Hc) as (_ & _ & _ & E4 & E5 & _).
  assert (i < length (Fin <$> qs)) as Hi' by now rewrite length_fmap.
  assert (Forall defined (window (Z.to_nat lookback) i (Fin <$> qs))) as Hall.
  { apply Forall_window, Forall_fmap, Forall_true. intros q. apply defined_Fin. }
  rewrite E4, E5, !at_roll, !roll_at_strict, window_fmap by assumption.
  pose proof (length_window (Z.to_nat lookback) i qs Hi) as Hlen.
  destruct (window (Z.to_nat lookback) i qs) as [|q w] eqn:Ew;
    [simpl in Hlen; lia|].
  destruct (smallest_Fin_spec q w) as (m & -> & Hm & Hmin).
  destruct (largest_Fin_spec q w) as (M & -> & HM & HMin).
  rewrite <- Ew in Hm, HM, Hmin, HMin.
  destruct (lookup_lt_is_Some_2 qs i Hi) as [cl Hcl].
  rewrite (at_Close _ _ _ _ _ Hc i cl Hcl).
  assert (forall j x, S i - Z.to_nat lookback <= j <= i -> qs !! j = Some x ->
            (m <= x <= M)%Q) as Hbounds.
  { intros j x Hj Hx.
    pose proof (proj1 (Forall_window_iff _ _ i qs Hi) Hm j x Hj Hx).
    pose proof (proj1 (Forall_window_iff _ _ i qs Hi) HM j x Hj Hx).
    simpl in *. lra. }
  exists m, M, cl. split; [reflexivity|]. split; [reflexivity|].
  split; [reflexivity|]. split; [apply (Hbounds i cl); [lia | exact Hcl]|].
  split; [exact Hbounds|].
  split; [now apply (elem_of_window _ _ _ _ Hi) in Hmin
         | now apply (elem_of_window _ _ _ _ Hi) in HMin].
Qed.

(** X9.  Where the base levels are defined, base support is the lowest and
    base resistance the highest close of the last [lookback] bars: they
    bound every close of the window, the close of the row itself included,
    and each is the close of some bar of the window. *)
Theorem base_levels_are_extremes qs period lookback smooth c i r :
  indicators (Fin <$> qs) period lookback smooth = Ok c ->
  rows c !! i = Some r ->
  defined (Base_Support r) ->
  exists m M cl,
    Base_Support r = Fin m /\ Base_Resistance r = Fin M /\ Close r = Fin cl /\
    (m <= cl <= M)%Q /\
    (forall j q, S i - Z.to_nat lookback <= j <= i -> qs !! j = Some q ->
                 (m <= q <= M)%Q) /\
    (exists j, S i - Z.to_nat lookback <= j <= i /\ qs !! j = Some m) /\
    (exists j, S i - Z.to_nat lookback <= j <= i /\ qs !! j = Some M).
Proof. apply base_extremes. Qed.

Lemma base_levels_are_extremes_witness :
  exists m M cl,
    Base_Support (row_at sample_table 7) = Fin m /\
    Base_Resistance (row_at sample_table 7) = Fin M /\
    Close (row_at sample_table 7) = Fin cl /\
    (m <= cl <= M)%Q /\
    (forall j q, 8 - Z.to_nat 2 <= j <= 7 ->
                 falling_then_rising !! j = Some q -> (m <= q <= M)%Q) /\
    (exists j, 8 - Z.to_nat 2 <= j <= 7 /\ falling_then_rising !! j = Some m) /\
    (exists j, 8 - Z.to_nat 2 <= j <= 7 /\ falling_then_rising !! j = Some M).
Proof.
  apply (base_levels_are_extremes falling_then_rising 2 2 3 sample_table 7);
    vm_compute; reflexivity.
Defined.

(** X10.  Over a lookback window in which every close is the same price,
    base support and base resistance are both that price and the range is
    zero. *)
Theorem flat_window_has_no_range qs period lookback smooth c i r q :
  indicators (Fin <$> qs) period lookback smooth = Ok c ->
  rows c !! i = Some r ->
  defined (Base_Support r) ->
  (forall j x, S i - Z.to_nat lookback <= j <= i -> qs !! j = Some x -> x = q) ->
  Base_Support r = Fin q /\ Base_Resistance r = Fin q /\ feq (Range r) 0%Z.
Proof.
  intros Hc Hr Hd Hflat.
  destruct (base_extremes _ _ _ _ _ _ _ Hc Hr Hd)
    as (m & M & cl & Em & EM & _ & _ & _ & (j & Hj & Hm) & (k & Hk & HM)).
  apply (Hflat j m Hj) in Hm. apply (Hflat k M Hk) in HM. subst m M.
  split; [exact Em|]. split; [exact EM|].
  apply (rows_lookup _ _ _ _ _ Hc) in Hr as [Hi ->]. simpl in *.
  destruct (table_assigned _ _ _ _ _ Hc) as (_ & _ & _ & _ & _ & E6 & _).
  destruct (table_lengths _ _ _ _ _ Hc) as (_ & _ & _ & H4 & H5 & _).
  rewrite E6, at_zip_with, Em, EM by lia. simpl. unfold inject_Z. lra.
Qed.

Lemma flat_window_has_no_range_witness :
  Base_Support (row_at flat_tail_table 6) = Fin 5 /\
  Base_Resistance (row_at flat_tail_table 6) = Fin 5 /\
  feq (Range (row_at flat_tail_table 6)) 0%Z.
Proof.
  apply (flat_window_has_no_range rising_then_flat 2 2 1 flat_tail_table 6);
    [vm_compute; reflexivity | vm_compute; reflexivity | reflexivity |].
  intros j x Hj Hx. simpl in Hj.
  assert (j = 5 \/ j = 6) as [-> | ->] by lia; now injection Hx as <-.
Defined.

(** What lines 107 and 111-115 assign, read at one position. *)
Lemma row_equations qs period lookback smooth c i :
  indicators (Fin <$> qs) period lookback smooth = Ok c ->
  i < length qs ->
  at_ (cRSI_diff c) i = fdiv (fabs (fsub (at_ (cRSI c) i) 50%Z)) 50%Z /\
  at_ (cRange c) i =
    fsub (at_ (cBase_Resistance c) i) (at_ (cBase_Support c) i) /\
  at_ (cAdj_Support c) i =
    fsub (at_ (cBase_Support c) i)
         (fmul (at_ (cRSI_diff c) i) (at_ (cRange c) i)) /\
  at_ (cAdj_Resistance c) i =
    fadd (at_ (cBase_Resistance c) i)
         (fmul (at_ (cRSI_diff c) i) (at_ (cRange c) i)) /\
  at_ (cMidline c) i =
    fdiv (fadd (at_ (cAdj_Support c) i) (at_ (cAdj_Resistance c) i)) 2%Z.
Proof.
  intros Hc Hi.
  destruct (table_lengths _ _ _ _ _ Hc)
    as (H1 & H2 & H3 & H4 & H5 & H6 & H7 & H8 & H9 & _).
  destruct (table_assigned _ _ _ _ _ Hc)
    as (_ & _ & E3 & _ & _ & E6 & E7 & E8 & E9 & _).
  split; [rewrite E3 at 1; now rewrite at_fmap by lia|].
  split; [rewrite E6 at 1; now rewrite at_zip_with by lia|].
  split.
  { rewrite E7 at 1.
    now rewrite !at_zip_with by (rewrite ?length_zip_with; lia). }
  split.
  { rewrite E8 at 1.
    now rewrite !at_zip_with by (rewrite ?length_zip_with; lia). }
  rewrite E9 at 1. rewrite at_fmap by (rewrite length_zip_with; lia).
  now rewrite at_zip_with by lia.
Qed.

(** The oscillator deviation of a rational oscillator value. *)
Lemma deviation_Fin r :
  (0 <= r <= 100)%Q ->
  exists d, fdiv (fabs (fsub (Fin r) 50%Z)) 50%Z = Fin d /\
            d == Qabs (r - 50) / 50 /\ (0 <= d <= 1)%Q.
Proof.
  intros Hr. unfold fsub, fneg, fadd, fabs, of_Z.
  change (inject_Z 50) with 50%Q.
  unfold fdiv. change (Qzero 50) with false. cbv iota.
  eexists. split; [reflexivity|]. split; [reflexivity|].
  assert (Qabs (r - 50) <= 50)%Q as Hle by (apply Qabs_Qle_condition; lra).
  pose proof (Qabs_nonneg (r - 50)) as Hge. unfold Qminus in *.
  split; [apply Qle_shift_div_l; lra | apply Qle_shift_div_r; lra].
Qed.

(** X11.  The oscillator deviation exists exactly where the oscillator
    does; it is |oscillator - 50| / 50 and lies between 0 and 1. *)
Theorem deviation_range qs period lookback smooth c i r :
  indicators (Fin <$> qs) period lookback smooth = Ok c ->
  rows c !! i = Some r ->
  (defined (RSI_diff r) <-> defined (RSI r)) /\
  (defined (RSI r) ->
   exists x d, RSI r = Fin x /\ RSI_diff r = Fin d /\
               d == Qabs (x - 50) / 50 /\ (0 <= d <= 1)%Q).
Proof.
  intros Hc Hr. apply (rows_lookup _ _ _ _ _ Hc) in Hr as [Hi ->]. simpl.
  destruct (row_equations _ _ _ _ _ _ Hc Hi) as (Ed & _). rewrite Ed.
  destruct (at_RSI_range _ _ _ _ _ Hc i Hi) as [->|Hx].
  - simpl. split; [reflexivity|].
    intros H. now apply not_defined_NaN in H.
  - apply fin_in_inv in Hx as (x & -> & Hx).
    destruct (deviation_Fin x Hx) as (d & -> & Hd & Hd01).
    split; [split; intros _; apply defined_Fin|].
    intros _. exists x, d. repeat split; tauto.
Qed.

Lemma deviation_range_witness :
  (defined (RSI_diff (row_at sample_table 7)) <->
   defined (RSI (row_at sample_table 7))) /\
  (defined (RSI (row_at sample_table 7)) ->
   exists x d, RSI (row_at sample_table 7) = Fin x /\
               RSI_diff (row_at sample_table 7) = Fin d /\
               d == Qabs (x - 50) / 50 /\ (0 <= d <= 1)%Q).
Proof.
  apply (deviation_range falling_then_rising 2 2 3 sample_table 7);
    vm_compute; reflexivity.
Defined.

(** ** More on the smoothing *)

Lemma window_one i (col : Series) :
  i < length col -> window 1 i col = [at_ col i].
Proof.
  intros Hi. unfold window. replace (S i - 1) with i by lia.
  rewrite (take_S_r col i (at_ col i)) by now apply lookup_at.
  rewrite drop_app_length'; [reflexivity|].
  rewrite length_take. lia.
Qed.

Lemma roll_one i (col : Series) :
  i < length col -> at_ col i = NaN \/ finite (at_ col i) ->
  feq (roll_at 1 1 mean col i) (at_ col i).
Proof.
  intros Hi Hshape. unfold roll_at. rewrite (window_one i col Hi).
  destruct Hshape as [->|Hfin].
  - reflexivity.
  - fin_cases (at_ col i) Hfin. simpl. unfold inject_Z. field.
Qed.

(** X14.  With smoothing length 1 the smoothed support, resistance and
    midline are the adjusted ones, value for value. *)
Theorem no_smoothing_with_length_one qs period lookback c i r :
  indicators (Fin <$> qs) period lookback 1 = Ok c ->
  rows c !! i = Some r ->
  feq (Smooth_Support r) (Adj_Support r) /\
  feq (Smooth_Resistance r) (Adj_Resistance r) /\
  feq (Smooth_Midline r) (Midline r).
Proof.
  intros Hc Hr. apply (rows_lookup _ _ _ _ _ Hc) in Hr as [Hi ->]. simpl.
  destruct (table_lengths _ _ _ _ _ Hc)
    as (_ & _ & _ & _ & _ & _ & H7 & H8 & H9 & _).
  destruct (table_assigned _ _ _ _ _ Hc)
    as (_ & _ & _ & _ & _ & _ & _ & _ & _ & E10 & E11 & E12).
  rewrite E10, E11, E12, !at_roll by lia. change (Z.to_nat 1) with 1.
  destruct (adjusted_at _ _ _ _ _ Hc i Hi)
    as [(_ & _ & a & m & mid & M & b & Ea & _ & Em & _ & Eb & _)
       |(_ & Ea & Em & Eb)];
    repeat split; apply roll_one; try lia;
    rewrite ?Ea, ?Em, ?Eb; (now left) || (right; exact I).
Qed.

Lemma no_smoothing_with_length_one_witness :
  feq (Smooth_Support (row_at flat_tail_table 5))
      (Adj_Support (row_at flat_tail_table 5)) /\
  feq (Smooth_Resistance (row_at flat_tail_table 5))
      (Adj_Resistance (row_at flat_tail_table 5)) /\
  feq (Smooth_Midline (row_at flat_tail_table 5))
      (Midline (row_at flat_tail_table 5)).
Proof.
  apply (no_smoothing_with_length_one rising_then_flat 2 2 flat_tail_table 5);
    vm_compute; reflexivity.
Defined.

(** ** No look-ahead *)

Lemma agree_app s t : agree (length s) (s ++ t) s.
Proof. intros i Hi. now apply lookup_app_l. Qed.

Lemma agree_fmap (f : float64 -> float64) n a b :
  agree n a b -> agree n (f <$> a) (f <$> b).
Proof. intros H i Hi. now rewrite !list_lookup_fmap, (H i Hi). Qed.

Lemma agree_zip_with (f : float64 -> float64 -> float64) n a b a' b' :
  agree n a b -> agree n a' b' -> agree n (zip_with f a a') (zip_with f b b').
Proof.
  intros H H' i Hi. now rewrite !lookup_zip_with, (H i Hi), (H' i Hi).
Qed.

Lemma agree_shift n a b :
  agree n a b -> n <= length a -> n <= length b -> agree n (shift a) (shift b).
Proof.
  intros H Ha Hb [|i] Hi.
  - rewrite !lookup_shift_0; [reflexivity|..]; intros ->; simpl in *; lia.
  - rewrite !lookup_shift_S by lia. apply H. lia.
Qed.

Lemma agree_window n a b w i :
  agree n a b -> i < n -> window w i a = window w i b.
Proof.
  intros H Hi. unfold window. f_equal. apply list_eq. intros k.
  rewrite !lookup_take.
  destruct (decide (k < S i)); [apply H; lia | reflexivity].
Qed.

Lemma agree_roll n a b w m agg :
  agree n a b -> n <= length a -> n <= length b ->
  agree n (roll w m agg a) (roll w m agg b).
Proof.
  intros H Ha Hb i Hi. rewrite !lookup_roll by lia.
  unfold roll_at. now rewrite (agree_window n a b w i H Hi).
Qed.

Lemma agree_at n a b i : agree n a b -> i < n -> at_ a i = at_ b i.
Proof. intros H Hi. unfold at_. now rewrite (H i Hi). Qed.

(** The tables of a series and of the same series with more bars after it
    agree, column by column, on the bars they share. *)
Lemma tables_agree qs more period lookback smooth c c' :
  indicators (Fin <$> qs) period lookback smooth = Ok c ->
  indicators (Fin <$> qs ++ more) period lookback smooth = Ok c' ->
  forall i, i < length qs -> row_at c' i = row_at c i.
Proof.
  intros Hc Hc'.
  set (n := length qs).
  destruct (table_assigned _ _ _ _ _ Hc)
    as (E1 & E2 & E3 & E4 & E5 & E6 & E7 & E8 & E9 & E10 & E11 & E12).
  destruct (table_assigned _ _ _ _ _ Hc')
    as (F1 & F2 & F3 & F4 & F5 & F6 & F7 & F8 & F9 & F10 & F11 & F12).
  destruct (table_lengths _ _ _ _ _ Hc)
    as (L1 & L2 & L3 & L4 & L5 & L6 & L7 & L8 & L9 & _).
  destruct (table_lengths _ _ _ _ _ Hc')
    as (M1 & M2 & M3 & M4 & M5 & M6 & M7 & M8 & M9 & _).
  rewrite length_app in *. fold n in L1, L2, L3, L4, L5, L6, L7, L8, L9.
  fold n in M1, M2, M3, M4, M5, M6, M7, M8, M9.
  assert (agree n (cClose c') (cClose c)) as A1.
  { rewrite E1, F1, fmap_app. unfold n. rewrite <- (length_fmap Fin qs).
    apply agree_app. }
  assert (n <= length (cClose c') /\ n <= length (cClose c)) as [Hn' Hn]
    by lia.
  assert (agree n (diff (cClose c')) (diff (cClose c))) as Ad.
  { unfold diff. apply agree_zip_with; [exact A1|].
    now apply agree_shift. }
  assert (agree n (cRSI c') (cRSI c)) as A2.
  { apply rsi_series_Ok in E2 as [_ E2]. apply rsi_series_Ok in F2 as [_ F2].
    rewrite E2, F2, <- E1, <- F1. apply agree_fmap.
    apply agree_zip_with; apply agree_roll;
      rewrite ?gain_eq, ?loss_eq, ?length_gain, ?length_loss, ?length_fmap,
        ?length_diff; try lia; now apply agree_fmap. }
  assert (agree n (cRSI_diff c') (cRSI_diff c)) as A3
    by (rewrite E3, F3; now apply agree_fmap).
  assert (agree n (cBase_Support c') (cBase_Support c)) as A4
    by (rewrite E4, F4, <- E1, <- F1; now apply agree_roll).
  assert (agree n (cBase_Resistance c') (cBase_Resistance c)) as A5
    by (rewrite E5, F5, <- E1, <- F1; now apply agree_roll).
  assert (agree n (cRange c') (cRange c)) as A6
    by (rewrite E6, F6; now apply agree_zip_with).
  assert (agree n (cAdj_Support c') (cAdj_Support c)) as A7
    by (rewrite E7, F7; repeat apply agree_zip_with; assumption).
  assert (agree n (cAdj_Resistance c') (cAdj_Resistance c)) as A8
    by (rewrite E8, F8; repeat apply agree_zip_with; assumption).
  assert (agree n (cMidline c') (cMidline c)) as A9
    by (rewrite E9, F9; apply agree_fmap; now apply agree_zip_with).
  assert (agree n (cSmooth_Support c') (cSmooth_Support c)) as A10
    by (rewrite E10, F10; apply agree_roll; [assumption | lia | lia]).
  assert (agree n (cSmooth_Resistance c') (cSmooth_Resistance c)) as A11
    by (rewrite E11, F11; apply agree_roll; [assumption | lia | lia]).
  assert (agree n (cSmooth_Midline c') (cSmooth_Midline c)) as A12
    by (rewrite E12, F12; apply agree_roll; [assumption | lia | lia]).
  intros i Hi. unfold row_at.
  rewrite (agree_at _ _ _ i A1 Hi), (agree_at _ _ _ i A2 Hi),
    (agree_at _ _ _ i A3 Hi), (agree_at _ _ _ i A4 Hi),
    (agree_at _ _ _ i A5 Hi), (agree_at _ _ _ i A6 Hi),
    (agree_at _ _ _ i A7 Hi), (agree_at _ _ _ i A8 Hi),
    (agree_at _ _ _ i A9 Hi), (agree_at _ _ _ i A10 Hi),
    (agree_at _ _ _ i A11 Hi), (agree_at _ _ _ i A12 Hi).
  reflexivity.
Qed.

(** X15.  No look-ahead: bars that come later change nothing in the rows
    of the table computed so far.  The table of [qs ++ more] starts with
    the rows of the table of [qs]. *)
Theorem later_bars_leave_rows_alone qs more period lookback smooth c c' :
  indicators (Fin <$> qs) period lookback smooth = Ok c ->
  indicators (Fin <$> qs ++ more) period lookback smooth = Ok c' ->
  rows c `prefix_of` rows c' /\
  forall i r, rows c !! i = Some r -> rows c' !! i = Some r.
Proof.
  intros Hc Hc'.
  pose proof (tables_agree _ _ _ _ _ _ _ Hc Hc') as Hrows.
  assert (forall i r, rows c !! i = Some r -> rows c' !! i = Some r) as Hl.
  { intros i r Hr. apply (rows_lookup _ _ _ _ _ Hc) in Hr as [Hi ->].
    apply (rows_lookup _ _ _ _ _ Hc'). rewrite length_app.
    split; [lia | now rewrite Hrows]. }
  split; [|exact Hl].
  exists (drop (length (rows c)) (rows c')).
  rewrite <- (take_drop (length (rows c)) (rows c')) at 1. f_equal.
  apply list_eq. intros i. rewrite lookup_take.
  destruct (decide (i < length (rows c))) as [Hi|Hi].
  - destruct (lookup_lt_is_Some_2 _ _ Hi) as [r Hr]. now rewrite Hr, (Hl i r Hr).
  - symmetry. apply lookup_ge_None. lia.
Qed.

Lemma later_bars_leave_rows_alone_witness :
  rows sample_table `prefix_of`
    rows (table_of (indicators (Fin <$> falling_then_rising ++ [8; 6]%Q) 2 2 3)) /\
  forall i r, rows sample_table !! i = Some r ->
    rows (table_of (indicators (Fin <$> falling_then_rising ++ [8; 6]%Q) 2 2 3))
      !! i = Some r.
Proof.
  apply (later_bars_leave_rows_alone falling_then_rising [8; 6]%Q 2 2 3);
    vm_compute; reflexivity.
Defined.

Lemma dropna_app xs ys : dropna (xs ++ ys) = dropna xs ++ dropna ys.
Proof. unfold dropna. apply filter_app. Qed.

Lemma take_Buy_Signal v w :
  take (length v) (Buy_Signal (v ++ w)) = Buy_Signal v.
Proof.
  apply list_eq. intros i. rewrite lookup_take.
  destruct (decide (i < length v)) as [Hi|Hi].
  2:{ symmetry. apply lookup_ge_None. rewrite length_Buy_Signal. lia. }
  destruct i as [|i].
  - destruct (lookup_lt_is_Some_2 v 0 Hi) as [r Hr].
    rewrite (Buy_Signal_first v r Hr).
    apply (Buy_Signal_first _ r). now rewrite lookup_app_l.
  - destruct (lookup_lt_is_Some_2 v (S i) Hi) as [r Hr].
    destruct (lookup_lt_is_Some_2 v i ltac:(lia)) as [p Hp].
    rewrite (Buy_Signal_next v i r p Hr Hp).
    apply Buy_Signal_next; now rewrite lookup_app_l by lia.
Qed.

Lemma take_Sell_Signal v w :
  take (length v) (Sell_Signal (v ++ w)) = Sell_Signal v.
Proof.
  apply list_eq. intros i. rewrite lookup_take.
  destruct (decide (i < length v)) as [Hi|Hi].
  2:{ symmetry. apply lookup_ge_None. rewrite length_Sell_Signal. lia. }
  destruct i as [|i].
  - destruct (lookup_lt_is_Some_2 v 0 Hi) as [r Hr].
    rewrite (Sell_Signal_first v r Hr).
    apply (Sell_Signal_first _ r). now rewrite lookup_app_l.
  - destruct (lookup_lt_is_Some_2 v (S i) Hi) as [r Hr].
    destruct (lookup_lt_is_Some_2 v i ltac:(lia)) as [p Hp].
    rewrite (Sell_Signal_next v i r p Hr Hp).
    apply Sell_Signal_next; now rewrite lookup_app_l by lia.
Qed.

Lemma rows_app qs more period lookback smooth c c' :
  indicators (Fin <$> qs) period lookback smooth = Ok c ->
  indicators (Fin <$> qs ++ more) period lookback smooth = Ok c' ->
  exists rest, rows c' = rows c ++ rest.
Proof.
  intros Hc Hc'.
  pose proof (tables_agree _ _ _ _ _ _ _ Hc Hc') as Hrows.
  exists (drop (length (rows c)) (rows c')).
  rewrite <- (take_drop (length (rows c)) (rows c')) at 1. f_equal.
  apply list_eq. intros i. rewrite lookup_take.
  rewrite (length_rows _ _ _ _ _ Hc).
  destruct (decide (i < length qs)) as [Hi|Hi].
  - rewrite (proj2 (rows_lookup _ _ _ _ _ Hc i (row_at c i)) (conj Hi eq_refl)).
    apply (rows_lookup _ _ _ _ _ Hc'). rewrite length_app.
    split; [lia | now rewrite Hrows].
  - symmetry. apply lookup_ge_None. rewrite (length_rows _ _ _ _ _ Hc). lia.
Qed.

(** X16.  Signals are never revised: when a run on [qs] completes, the run
    on [qs] followed by more bars completes too, and its valid rows, buy
    flags and sell flags start with those of the shorter run. *)
Theorem signals_are_never_revised qs more period lookback smooth rep :
  pipeline qs period lookback smooth = Completed rep ->
  exists rep',
    pipeline (qs ++ more) period lookback smooth = Completed rep' /\
    valid_rows rep `prefix_of` valid_rows rep' /\
    buy rep `prefix_of` buy rep' /\
    sell rep `prefix_of` sell rep'.
Proof.
  intros Hrun.
  destruct (pipeline_Completed _ _ _ _ _ Hrun)
    as (c & Hc & Ev & Eb & Es & Hlast & _).
  destruct (indicators_Ok _ _ _ _ _ Hc) as [(HP & HL & HS) _].
  destruct (indicators_total (Fin <$> qs ++ more) period lookback smooth HP HL HS)
    as [c' Hc'].
  destruct (rows_app _ _ _ _ _ _ _ Hc Hc') as [rest Erows].
  assert (dropna (rows c') = dropna (rows c) ++ dropna rest) as Ed
    by now rewrite Erows, dropna_app.
  destruct (pipeline (qs ++ more) period lookback smooth) as [e| |rep'] eqn:Hrun'.
  - apply pipeline_Raised in Hrun'. lia.
  - apply pipeline_Stopped in Hrun' as (c'' & Hc'' & Hnil).
    assert (c'' = c') as -> by congruence.
    rewrite Ed in Hnil. apply app_eq_nil in Hnil as [Hnil _].
    rewrite Hnil in Hlast. discriminate.
  - exists rep'. split; [reflexivity|].
    destruct (pipeline_Completed _ _ _ _ _ Hrun')
      as (c'' & Hc'' & Ev' & Eb' & Es' & _).
    assert (c'' = c') as -> by congruence.
    rewrite Ev, Ev', Eb, Eb', Es, Es', Ed.
    split; [now exists (dropna rest)|]. split.
    + exists (drop (length (dropna (rows c)))
                (Buy_Signal (dropna (rows c) ++ dropna rest))).
      now rewrite <- (take_Buy_Signal (dropna (rows c)) (dropna rest)) at 1;
        rewrite take_drop.
    + exists (drop (length (dropna (rows c)))
                (Sell_Signal (dropna (rows c) ++ dropna rest))).
      now rewrite <- (take_Sell_Signal (dropna (rows c)) (dropna rest)) at 1;
        rewrite take_drop.
Qed.

Lemma signals_are_never_revised_witness :
  exists rep',
    pipeline (falling_then_rising ++ [8; 6]%Q) 2 2 3 = Completed rep' /\
    valid_rows sample_report `prefix_of` valid_rows rep' /\
    buy sample_report `prefix_of` buy rep' /\
    sell sample_report `prefix_of` sell rep'.
Proof.
  apply (signals_are_never_revised falling_then_rising [8; 6]%Q 2 2 3).
  vm_compute. reflexivity.
Defined.

(** ** Runs that stop *)

(** X17.  A series of identical closes never reaches a recommendation:
    whatever the parameters that pandas accepts, the run stops with the
    warning, because the oscillator is NaN on every bar. *)
Theorem flat_series_stops q n period lookback smooth :
  (1 <= period)%Z -> (0 <= lookback)%Z -> (0 <= smooth)%Z ->
  pipeline (replicate n q) period lookback smooth = Stopped.
Proof.
  intros HP HL HS. apply pipeline_Stopped.
  destruct (indicators_total (Fin <$> replicate n q) period lookback smooth
              HP HL HS) as [c Hc].
  exists c. split; [exact Hc|].
  rewrite valid_rows_eq.
  destruct (valid_positions c) as [|i v] eqn:E; [reflexivity|]. exfalso.
  assert (i ∈ valid_positions c) as Hi by (rewrite E; apply elem_of_cons; now left).
  apply elem_of_valid_positions in Hi as [Hi Hcomp].
  destruct (table_lengths _ _ _ _ _ Hc) as (H1 & _). rewrite H1 in Hi.
  apply (complete_row _ _ _ _ _ Hc i Hi) in Hcomp as (_ & Hs & _ & Hall).
  specialize (Hall i ltac:(lia)).
  destruct (table_assigned _ _ _ _ _ Hc) as (_ & E2 & _).
  rewrite (rsi_series_flat q n period HP) in E2. injection E2 as E2.
  rewrite <- E2 in Hall. unfold at_ in Hall.
  rewrite length_replicate in Hi.
  rewrite (lookup_replicate_2 n NaN i Hi) in Hall.
  now apply not_defined_NaN in Hall.
Qed.

Lemma flat_series_stops_witness :
  pipeline (replicate 100 10%Q) 14 50 5 = Stopped.
Proof. apply (flat_series_stops 10%Q 100 14 50 5); lia. Defined.

(** X18.  The first bar is never valid (its oscillator is 0/0), and no bar
    is valid before position lookback + smoothLength - 2: the valid region
    has at most one row less than there are bars. *)
Theorem valid_region_bounds qs period lookback smooth c :
  indicators (Fin <$> qs) period lookback smooth = Ok c ->
  Forall (fun i => 1 <= i < length qs /\
                   (lookback + smooth - 2 <= Z.of_nat i)%Z)
    (valid_positions c) /\
  length (dropna (rows c)) <= length qs - 1.
Proof.
  intros Hc.
  destruct (table_lengths _ _ _ _ _ Hc) as (H1 & _).
  destruct (table_assigned _ _ _ _ _ Hc) as (_ & E2 & _).
  assert (forall i, i ∈ valid_positions c ->
            1 <= i < length qs /\ (lookback + smooth - 2 <= Z.of_nat i)%Z) as Hv.
  { intros i Hi. apply elem_of_valid_positions in Hi as [Hi Hcomp].
    rewrite H1 in Hi.
    apply (complete_row _ _ _ _ _ Hc i Hi) in Hcomp as (Hl & Hs & Hls & Hall).
    split; [|lia]. split; [|exact Hi].
    destruct i as [|i]; [|lia]. exfalso.
    specialize (Hall 0 ltac:(lia)).
    assert (qs <> []) as Hne by (intros ->; simpl in Hi; lia).
    unfold at_ in Hall. rewrite (rsi_series_first _ _ _ E2 Hne) in Hall.
    now apply not_defined_NaN in Hall. }
  split; [apply Forall_forall; exact Hv|].
  rewrite valid_rows_eq, length_fmap.
  assert (0 ∉ valid_positions c) as H0 by (intros H; apply Hv in H; lia).
  rewrite valid_positions_eq in *. rewrite H1 in *.
  destruct (length qs) as [|m]; [simpl; lia|].
  simpl seq in *. rewrite filter_cons in *.
  destruct (decide (complete (row_at c 0) = true)) as [Hc0|Hc0].
  - exfalso. apply H0. apply elem_of_cons. now left.
  - etransitivity; [apply length_filter|]. rewrite length_seq. lia.
Qed.

Lemma valid_region_bounds_witness :
  Forall (fun i => 1 <= i < length falling_then_rising /\
                   (2 + 3 - 2 <= Z.of_nat i)%Z)
    (valid_positions sample_table) /\
  length (dropna (rows sample_table)) <= length falling_then_rising - 1.
Proof.
  apply (valid_region_bounds falling_then_rising 2 2 3 sample_table).
  vm_compute. reflexivity.
Defined.

(** X19.  [rsi_series] raises exactly when the period is below 1; otherwise
    it returns one value per close, and the first value is NaN. *)
Theorem oscillator_series_shape qs period :
  ((exists e, rsi_series (Fin <$> qs) period = Raise e) <-> (period < 1)%Z) /\
  (forall rsi, rsi_series (Fin <$> qs) period = Ok rsi ->
     length rsi = length qs /\ (qs <> [] -> rsi !! 0 = Some NaN)).
Proof.
  split.
  - split.
    + intros [e He]. now apply rsi_series_Raise in He.
    + intros H. exists ValueError. now apply rsi_series_Raise.
  - intros rsi E. split.
    + rewrite (length_rsi_series _ _ _ E). apply length_fmap.
    + intros Hne. eapply rsi_series_first; eassumption.
Qed.

Lemma oscillator_series_shape_witness :
  length (table_of_rsi falling_then_rising 2) = length falling_then_rising /\
  (falling_then_rising <> [] ->
   table_of_rsi falling_then_rising 2 !! 0 = Some NaN).
Proof.
  exact (proj2 (oscillator_series_shape falling_then_rising 2)
           (table_of_rsi falling_then_rising 2) eq_refl).
Defined.
